(** * pageloadstats: the worker pool, the retry loop and the orchestrator

    A shallow embedding of [workers_pool.go] and of the package's main file
    ([New], [GetMeasurements], [try], [getMeasurementsInternal],
    [getThumbnailFile]), followed by the properties of the specification
    that can be stated over it.

    Conventions.
    - Go's [int] and [int64] are 64-bit two's complement integers: they are
      values of [Z] inside [int_min .. int_max], and every operation that
      can leave the range is wrapped by [wrap_int].
    - A call that returns [(T, error)] yields an [outcome T]: [Ok] for a nil
      error, [Err] for a non-nil one; a run-time panic is [Panic].
    - The mutex of [workersPool] is not represented: [getPhantom] and
      [releasePhantom] hold it for their whole body, so each of them is one
      atomic step on the pool.
    - Calls that leave the package (net/url, ioutil, phantomjs,
      encoding/json) are fields of an [Engine] record. *)

From Stdlib Require Import Ascii.
From stdpp Require Import gmap strings list fin_maps.

Local Open Scope Z_scope.

(** ** Machine integers *)

Definition int_min : Z := - 2 ^ 63.
Definition int_max : Z := 2 ^ 63 - 1.

(** Two's complement wrap-around of a signed 64-bit result. *)
Definition wrap_int (z : Z) : Z := (z + 2 ^ 63) mod 2 ^ 64 - 2 ^ 63.

Definition in_int (z : Z) : Prop := int_min ≤ z ≤ int_max.

(** [time.Duration] is an [int64] count of nanoseconds. *)
Definition Duration := Z.
Definition Millisecond : Duration := 1000000.

(** [time.Duration(ms) * time.Millisecond] *)
Definition duration_of_ms (ms : Z) : Duration := wrap_int (ms * Millisecond).

(** [200 * time.Millisecond], a constant expression. *)
Definition retry_interval : Duration := 200 * Millisecond.

(** ** Handles, errors, outcomes *)

(** [*phantomjs.Phantom]: a pointer, compared by address. *)
Inductive Phantom : Type :=
  | nil
  | Ptr (addr : N).

#[global] Instance Phantom_eq_dec : EqDecision Phantom.
Proof. solve_decision. Defined.

(** Where an error value comes from. *)
Inductive origin : Type := NetURL | Ioutil | PhantomJS | EncodingJSON.

Inductive error : Type :=
  | errorString (msg : string)                (* fmt.Errorf, errors.New *)
  | foreignError (from : origin) (msg : string).

#[global] Instance origin_eq_dec : EqDecision origin.
Proof. solve_decision. Defined.

#[global] Instance error_eq_dec : EqDecision error.
Proof. solve_decision. Defined.

(** The four errors the package creates itself.  In the specification's
    vocabulary [ErrNoFreePhantom] (from the pool) and [ErrMaxWait] (from the
    retry loop) are both PoolExhausted, [ErrReleasePhantom] is InvalidHandle
    and [ErrNoTries] is InvalidTries. *)
Definition ErrNoFreePhantom : error := errorString "Could not get phantom process".
Definition ErrReleasePhantom : error := errorString "Could not release phantom process".
Definition ErrNoTries : error :=
  errorString "You have to specify at least one try to get any result".
Definition ErrMaxWait : error := errorString "Maximum phantom wait time exceeded".

Inductive outcome (A : Type) : Type :=
  | Ok (a : A)
  | Err (e : error)
  | Panic (msg : string).

Arguments Ok {A} a.
Arguments Err {A} e.
Arguments Panic {A} msg.

Definition index_out_of_range : string := "index out of range".

(** ** The worker pool (workers_pool.go) *)

Record workersPool : Type := mkPool {
  used : list bool;
  workers : list Phantom;
  size : Z
}.

Definition set_used (p : workersPool) (u : list bool) : workersPool :=
  {| used := u; workers := workers p; size := size p |}.

Definition set_workers (p : workersPool) (ws : list Phantom) : workersPool :=
  {| used := used p; workers := ws; size := size p |}.

(** [for i := 0; i < p.size; i++ { if !p.used[i] { p.used[i] = true; return
    p.workers[i], nil } }]: [n] counts the iterations that remain, [i] is the
    index.  An index outside a slice panics. *)
Fixpoint getPhantom_loop (n i : nat) (p : workersPool) : outcome Phantom * workersPool :=
  match n with
  | O => (Err ErrNoFreePhantom, p)
  | S n' =>
      match used p !! i with
      | None => (Panic index_out_of_range, p)
      | Some true => getPhantom_loop n' (S i) p
      | Some false =>
          let p' := set_used p (<[i := true]> (used p)) in
          match workers p' !! i with
          | None => (Panic index_out_of_range, p')
          | Some w => (Ok w, p')
          end
      end
  end.

Definition getPhantom (p : workersPool) : outcome Phantom * workersPool :=
  getPhantom_loop (Z.to_nat (size p)) 0 p.

(** [for i := 0; i < p.size; i++ { if p.workers[i] == phantom { p.used[i] =
    false; return nil } }] *)
Fixpoint releasePhantom_loop (n i : nat) (phantom : Phantom) (p : workersPool)
  : outcome unit * workersPool :=
  match n with
  | O => (Err ErrReleasePhantom, p)
  | S n' =>
      match workers p !! i with
      | None => (Panic index_out_of_range, p)
      | Some w =>
          if decide (w = phantom) then
            match used p !! i with
            | None => (Panic index_out_of_range, p)
            | Some _ => (Ok (), set_used p (<[i := false]> (used p)))
            end
          else releasePhantom_loop n' (S i) phantom p
      end
  end.

Definition releasePhantom (phantom : Phantom) (p : workersPool)
  : outcome unit * workersPool :=
  releasePhantom_loop (Z.to_nat (size p)) 0 phantom p.

(** [New]: the two [make] calls come first and panic when the length is
    negative or more than the runtime grants; then one [phantomjs.Start()]
    per slot, a failed start panics.  [maxLen] is the largest length for
    which both [make([]bool, n)] and [make([]*phantomjs.Phantom, n)] return
    on the machine at hand (it depends on the platform and on the memory
    left); [Start k] is what the [k]-th call of [phantomjs.Start] returns. *)
Fixpoint New_loop (n i : nat) (Start : nat → outcome Phantom) (p : workersPool)
  : outcome workersPool :=
  match n with
  | O => Ok p
  | S n' =>
      match Start i with
      | Ok w =>
          if decide (i < length (workers p))%nat
          then New_loop n' (S i) Start (set_workers p (<[i := w]> (workers p)))
          else Panic index_out_of_range
      | Err (errorString msg) | Err (foreignError _ msg) => Panic msg
      | Panic msg => Panic msg
      end
  end.

Definition New (maxLen poolSize : Z) (Start : nat → outcome Phantom)
  : outcome workersPool :=
  if (poolSize <? 0) || (maxLen <? poolSize) then Panic "makeslice: len out of range"
  else
    let n := Z.to_nat poolSize in
    New_loop n 0 Start
      {| used := replicate n false; workers := replicate n nil; size := poolSize |}.

(** [Close]: [for i := 0; i < p.size; i++ { if p.workers[i] == nil {
    continue }; p.workers[i].Exit() }].  The pool is only read; the second
    component lists the handles [Exit] was called on, in call order (the
    error [Exit] returns is dropped by the code). *)
Fixpoint Close_loop (n i : nat) (p : workersPool) (exited : list Phantom)
  : outcome unit * list Phantom :=
  match n with
  | O => (Ok (), exited)
  | S n' =>
      match workers p !! i with
      | None => (Panic index_out_of_range, exited)
      | Some w =>
          if decide (w = nil) then Close_loop n' (S i) p exited
          else Close_loop n' (S i) p (exited ++ [w])
      end
  end.

Definition Close (p : workersPool) : outcome unit * list Phantom :=
  Close_loop (Z.to_nat (size p)) 0 p [].

(** ** Measurement records *)

(** [time.Time], as nanoseconds since the epoch. *)
Definition Time := Z.

Record RequestMeasurements : Type := mkRequest {
  StartTime : Time;
  EndTime : Time;
  RunningTime : Z;
  RunningTimeDuration : Duration;
  Status : Z;
  URL : string
}.

Record PageMeasurements : Type := mkPage {
  LoadTime : Z;
  Responses : gmap Z RequestMeasurements;
  LoadTimeDuration : Duration;
  ThumbnailFile : string
}.

Definition set_RunningTimeDuration (d : Duration) (v : RequestMeasurements)
  : RequestMeasurements :=
  {| StartTime := StartTime v; EndTime := EndTime v; RunningTime := RunningTime v;
     RunningTimeDuration := d; Status := Status v; URL := URL v |}.

Definition set_LoadTimeDuration (d : Duration) (m : PageMeasurements) : PageMeasurements :=
  {| LoadTime := LoadTime m; Responses := Responses m;
     LoadTimeDuration := d; ThumbnailFile := ThumbnailFile m |}.

Definition set_ThumbnailFile (f : string) (m : PageMeasurements) : PageMeasurements :=
  {| LoadTime := LoadTime m; Responses := Responses m;
     LoadTimeDuration := LoadTimeDuration m; ThumbnailFile := f |}.

(** The script handed to the engine: the fixed template of [getJsFunc] with
    its two [%q] arguments. *)
Record Script : Type := getJsFunc { address : string; thumbnailFile : string }.

(** ** Effects: the pool and a log of what was called *)

Inductive event : Type :=
  | EvGetPhantom (r : outcome Phantom)
  | EvReleasePhantom (phantom : Phantom) (r : outcome unit)
  | EvSleep (d : Duration)
  | EvTempFile (dir : string)
  | EvRun (phantom : Phantom) (script : Script).

Record world : Type := mkWorld {
  pool : workersPool;
  log : list event          (* oldest first *)
}.

Definition emit (e : event) (w : world) : world :=
  {| pool := pool w; log := log w ++ [e] |}.

Definition M (A : Type) : Type := world → outcome A * world.

(** A pool operation as an effect: it runs on the pool and its result is
    logged. *)
Definition acquiring (f : workersPool → outcome Phantom * workersPool) : M Phantom :=
  λ w, let '(r, p') := f (pool w) in
       (r, {| pool := p'; log := log w ++ [EvGetPhantom r] |}).

(** The method value [loadTimer.getPhantom] that [GetMeasurements] passes to
    [try]. *)
Definition getPhantom_call : M Phantom := acquiring getPhantom.

Definition releasePhantom_call (phantom : Phantom) : M unit :=
  λ w, let '(r, p') := releasePhantom phantom (pool w) in
       (r, {| pool := p'; log := log w ++ [EvReleasePhantom phantom r] |}).

(** [time.Sleep(d)] *)
Definition Sleep (d : Duration) (w : world) : world := emit (EvSleep d) w.

(** ** The retry loop

    [attempt := 1; for attempt <= maxTries { res, err := fn(); if err == nil
    { return res, nil }; time.Sleep(200 * time.Millisecond); attempt++ };
    return nil, errors.New(...)].  The loop has no bound of its own, so the
    embedding takes fuel, the number of times the loop condition may be
    evaluated: the result [None] is a run that is still going when the fuel
    is spent, and the world beside it is what the run has done so far. *)
Fixpoint try_loop (fuel : nat) (maxTries : Z) (fn : M Phantom) (attempt : Z) (w : world)
  : option (outcome Phantom) * world :=
  match fuel with
  | O => (None, w)
  | S fuel' =>
      if attempt <=? maxTries then
        match fn w with
        | (Ok res, w1) => (Some (Ok res), w1)
        | (Err _, w1) =>
            try_loop fuel' maxTries fn (wrap_int (attempt + 1)) (Sleep retry_interval w1)
        | (Panic msg, w1) => (Some (Panic msg), w1)
        end
      else (Some (Err ErrMaxWait), w)
  end.

Definition try (fuel : nat) (maxTries : Z) (fn : M Phantom) (w : world)
  : option (outcome Phantom) * world :=
  try_loop fuel maxTries fn 1 w.

(** ** The orchestrator and the parser *)

Section Orchestrator.

(** [interface{}]: the value the engine hands back. *)
Context {any : Type}.

(** The calls that leave the package. *)
Record Engine : Type := mkEngine {
  (* url.ParseRequestURI: the error, if any *)
  ParseRequestURI : string → option error;
  (* ioutil.TempFile(dir, prefix) followed by Name() *)
  TempFile : string → string → outcome string;
  (* phantom.Run(script, &result) *)
  Run : Phantom → Script → outcome any;
  (* json.Marshal *)
  Marshal : any → outcome string;
  (* json.Unmarshal into a zero PageMeasurements *)
  Unmarshal : string → outcome PageMeasurements
}.

Variable eng : Engine.

Definition getThumbnailFile (thumbnailsDir : string) : M string :=
  λ w,
    if (0 <? Z.of_nat (String.length thumbnailsDir)) then
      (TempFile eng thumbnailsDir "thumb", emit (EvTempFile thumbnailsDir) w)
    else (Ok EmptyString, w).

(** One iteration of [for _, v := range performance.Responses]: [v] is
    the loop's own variable, a copy of the element; the body assigns to a
    field of [v] and stores nothing into [performance]. *)
Definition range_body (elem : Z * RequestMeasurements) (performance : PageMeasurements)
  : PageMeasurements :=
  let v := elem.2 in
  let v := set_RunningTimeDuration (duration_of_ms (RunningTime v)) v in
  performance.

Definition range_Responses (performance : PageMeasurements) : PageMeasurements :=
  foldr range_body performance (map_to_list (Responses performance)).

Definition getMeasurementsInternal (phantom : Phantom) (rawurl thumbnailsDir : string)
  : M PageMeasurements :=
  λ w,
    match getThumbnailFile thumbnailsDir w with
    | (Err e, w1) => (Err e, w1)
    | (Panic msg, w1) => (Panic msg, w1)
    | (Ok thumbnailFile, w1) =>
        let script := getJsFunc rawurl thumbnailFile in
        let w2 := emit (EvRun phantom script) w1 in
        match Run eng phantom script with
        | Err e => (Err e, w2)
        | Panic msg => (Panic msg, w2)
        | Ok result =>
            match Marshal eng result with
            | Err e => (Err e, w2)
            | Panic msg => (Panic msg, w2)
            | Ok jsonResult =>
                match Unmarshal eng jsonResult with
                | Err e => (Err e, w2)
                | Panic msg => (Panic msg, w2)
                | Ok performance =>
                    let performance :=
                      set_LoadTimeDuration (duration_of_ms (LoadTime performance))
                        performance in
                    let performance :=
                      if (0 <? Z.of_nat (String.length thumbnailFile))
                      then set_ThumbnailFile thumbnailFile performance
                      else performance in
                    let performance := range_Responses performance in
                    (Ok performance, w2)
                end
            end
        end
    end.

(** [GetMeasurements].  The deferred [releasePhantom(phantom)] runs when
    the function leaves, whatever [getMeasurementsInternal] returned (a
    panic included); its error is dropped, its panic is not. *)
Definition GetMeasurements (fuel : nat) (rawurl : string) (nrOfTries : Z)
    (thumbnailsDir : string) (w : world) : option (outcome PageMeasurements) * world :=
  match ParseRequestURI eng rawurl with
  | Some err => (Some (Err err), w)
  | None =>
      if nrOfTries <? 1 then (Some (Err ErrNoTries), w)
      else
        match try fuel nrOfTries getPhantom_call w with
        | (None, w1) => (None, w1)
        | (Some (Err e), w1) => (Some (Err e), w1)
        | (Some (Panic msg), w1) => (Some (Panic msg), w1)
        | (Some (Ok phantom), w1) =>
            let '(r, w2) := getMeasurementsInternal phantom rawurl thumbnailsDir w1 in
            let '(released, w3) := releasePhantom_call phantom w2 in
            match released with
            | Panic msg => (Some (Panic msg), w3)
            | _ => (Some r, w3)
            end
        end
  end.

End Orchestrator.

Arguments Engine any : clear implicits.

(** ** Pool states *)

(** The shape [New] establishes: both slices have [size] elements. *)
Definition wf (p : workersPool) : Prop :=
  size p = Z.of_nat (length (used p)) ∧ length (workers p) = length (used p).

(** Number of flags that are set. *)
Definition in_use (p : workersPool) : nat := length (filter (λ b, b = true) (used p)).

Inductive op : Type :=
  | Acquire
  | Release (phantom : Phantom).

Definition step (o : op) (p : workersPool) : workersPool :=
  match o with
  | Acquire => (getPhantom p).2
  | Release phantom => (releasePhantom phantom p).2
  end.

(** States reached from [p0] by any sequence of operations. *)
Inductive reachable (p0 : workersPool) : workersPool → Prop :=
  | reachable_init : reachable p0 p0
  | reachable_step o p : reachable p0 p → reachable p0 (step o p).

(** [n] acquisitions in a row, all of them successful; [None] when one of
    them is not. *)
Fixpoint acquire_n (n : nat) (p : workersPool) : option workersPool :=
  match n with
  | O => Some p
  | S n' =>
      match getPhantom p with
      | (Ok _, p') => acquire_n n' p'
      | _ => None
      end
  end.

(** The pool after [m] further calls of [getPhantom]. *)
Fixpoint acquire_more (m : nat) (p : workersPool) : workersPool :=
  match m with
  | O => p
  | S m' => acquire_more m' (getPhantom p).2
  end.

(** ** Vocabulary of the retry loop's log *)

(** What one failed attempt leaves in the log: the call, then the sleep. *)
Definition failed_round (e : error) : list event :=
  [EvGetPhantom (Err e); EvSleep retry_interval].

Definition failed_rounds (es : list error) : list event :=
  concat (failed_round <$> es).

Definition is_sleep (e : event) : bool :=
  match e with EvSleep _ => true | _ => false end.

Definition is_attempt (e : event) : bool :=
  match e with EvGetPhantom _ => true | _ => false end.

Definition sleeps (l : list event) : nat := length (filter (λ e, is_sleep e = true) l).
Definition attempts (l : list event) : nat := length (filter (λ e, is_attempt e = true) l).

(** The runs the policy allows with a budget of [budget] attempts: some
    failed rounds, then either a successful call that ends the run, or a
    panicking call, or nothing more once the budget is spent. *)
Inductive try_run (budget : nat) : outcome Phantom → list event → Prop :=
  | try_run_ok es h :
      (length es < budget)%nat →
      try_run budget (Ok h) (failed_rounds es ++ [EvGetPhantom (Ok h)])
  | try_run_panic es msg :
      (length es < budget)%nat →
      try_run budget (Panic msg) (failed_rounds es ++ [EvGetPhantom (Panic msg)])
  | try_run_exhausted es :
      length es = budget →
      try_run budget (Err ErrMaxWait) (failed_rounds es).

(** A pool with one worker, which is out. *)
Definition pool1_busy : workersPool :=
  {| used := [true]; workers := [Ptr 1]; size := 1 |}.

(** The pool [New 0] returns: it never has a free worker. *)
Definition pool0 : workersPool := {| used := []; workers := []; size := 0 |}.

(** ** Pools used in the examples *)

Definition start3 : nat → outcome Phantom := λ k, Ok (Ptr (N.of_nat (S k))).

(** A limit on the length of the two slices, for the examples. *)
Definition maxLen_example : Z := 2 ^ 45.

Definition pool3 : workersPool :=
  {| used := [false; false; false]; workers := [Ptr 1; Ptr 2; Ptr 3]; size := 3 |}.

(** The first worker is out, the other two are free. *)
Definition pool3_busy : workersPool :=
  {| used := [true; false; false]; workers := [Ptr 1; Ptr 2; Ptr 3]; size := 3 |}.

(** An acquisition function that fails on its first two calls and succeeds
    on the third: it keeps count in the number of flags of the pool it hands
    back. *)
Definition third_time_lucky (p : workersPool) : outcome Phantom * workersPool :=
  match length (used p) with
  | 1%nat => (Err ErrNoFreePhantom, set_used p [true; true])
  | 2%nat => (Err ErrNoFreePhantom, pool3)
  | _ => getPhantom p
  end.

(** The handles that [releasePhantom] was called with, in order. *)
Definition releases (l : list event) : list Phantom :=
  omap (λ e, match e with EvReleasePhantom h _ => Some h | _ => None end) l.

(** ** An engine for the examples

    The engine output of the specification's example: the page loaded in
    500 ms and its one request, number 1, ran for 100 ms.  [decoded_example]
    is the record [json.Unmarshal] fills from it: the two duration fields
    have no key in the engine's output and keep their zero value. *)
Definition t0 : Time := 1500000000000000000.

Definition response_example : RequestMeasurements :=
  {| StartTime := t0; EndTime := t0 + 100 * Millisecond; RunningTime := 100;
     RunningTimeDuration := 0; Status := 200; URL := "http://a" |}.

Definition decoded_example : PageMeasurements :=
  {| LoadTime := 500; Responses := {[ 1 := response_example ]};
     LoadTimeDuration := 0; ThumbnailFile := EmptyString |}.

Definition output_example : string :=
  "{loadTime: 500, responses: {1: {startTime: t0, endTime: t0+100ms, runningTime: 100, status: 200, url: http://a}}}".

Definition engine_example : Engine string :=
  {| ParseRequestURI := λ _, None;
     TempFile := λ dir prefix, Ok (dir +:+ "/" +:+ prefix +:+ "123");
     Run := λ _ _, Ok output_example;
     Marshal := λ result, Ok result;
     Unmarshal := λ _, Ok decoded_example |}.

Definition io_error (from : origin) : error := foreignError from "failed".

(** The same engine with one of its calls failing. *)
Definition engine_no_thumbnail : Engine string :=
  {| ParseRequestURI := ParseRequestURI engine_example;
     TempFile := λ _ _, Err (io_error Ioutil); Run := Run engine_example;
     Marshal := Marshal engine_example; Unmarshal := Unmarshal engine_example |}.

Definition engine_run_fails : Engine string :=
  {| ParseRequestURI := ParseRequestURI engine_example;
     TempFile := TempFile engine_example; Run := λ _ _, Err (io_error PhantomJS);
     Marshal := Marshal engine_example; Unmarshal := Unmarshal engine_example |}.

Definition engine_marshal_fails : Engine string :=
  {| ParseRequestURI := ParseRequestURI engine_example;
     TempFile := TempFile engine_example; Run := Run engine_example;
     Marshal := λ _, Err (io_error EncodingJSON);
     Unmarshal := Unmarshal engine_example |}.

Definition engine_unmarshal_fails : Engine string :=
  {| ParseRequestURI := ParseRequestURI engine_example;
     TempFile := TempFile engine_example; Run := Run engine_example;
     Marshal := Marshal engine_example;
     Unmarshal := λ _, Err (io_error EncodingJSON) |}.

Definition world3 : world := {| pool := pool3; log := [] |}.

(** [world3] once the retry loop has taken the first worker. *)
Definition world3_acquired : world :=
  {| pool := pool3_busy; log := [EvGetPhantom (Ok (Ptr 1))] |}.

(** ** Vocabulary of the further properties *)

(** The pool after a sequence of operations, first operation first. *)
Definition run (ops : list op) (p : workersPool) : workersPool :=
  foldl (λ q o, step o q) p ops.

Definition is_run (e : event) : bool :=
  match e with EvRun _ _ => true | _ => false end.

Definition is_tempfile (e : event) : bool :=
  match e with EvTempFile _ => true | _ => false end.

(** Number of engine executions and of temporary files in a log. *)
Definition engine_runs (l : list event) : nat := length (filter (λ e, is_run e = true) l).
Definition tempfiles (l : list event) : nat := length (filter (λ e, is_tempfile e = true) l).

(** The largest and smallest millisecond counts whose nanosecond count fits
    an [int64]. *)
Definition max_ms : Z := 9223372036854.

(** An engine whose page reports a load time one millisecond past
    [max_ms]. *)
Definition decoded_long : PageMeasurements :=
  {| LoadTime := max_ms + 1; Responses := ∅;
     LoadTimeDuration := 0; ThumbnailFile := EmptyString |}.

Definition engine_long : Engine string :=
  {| ParseRequestURI := ParseRequestURI engine_example;
     TempFile := TempFile engine_example; Run := Run engine_example;
     Marshal := Marshal engine_example; Unmarshal := λ _, Ok decoded_long |}.

(** A start function whose second call fails. *)
Definition start_second_fails : nat → outcome Phantom :=
  λ k, if decide (k = 1%nat) then Err (io_error PhantomJS) else start3 k.

(** A pool with an empty slot: [Close] skips it. *)
Definition pool3_gap : workersPool :=
  {| used := [true; false; false]; workers := [Ptr 1; nil; Ptr 3]; size := 3 |}.

(** All three workers of [pool3] are out. *)
Definition pool3_full : workersPool :=
  {| used := [true; true; true]; workers := [Ptr 1; Ptr 2; Ptr 3]; size := 3 |}.

(** ** net/url

    [url.ParseRequestURI] is library code, not part of the repository, and
    in the model it is a field of [Engine].  For the examples this is what
    it does with a string that has no scheme, after the source of Go's
    net/url ([parse] with [viaRequest] set): a control character or the
    empty string is an error; a lone asterisk is accepted; [getScheme] splits
    off a leading scheme; without one, the part before the first question
    mark must begin with a slash (else: invalid URI for request) and is
    then accepted as a path if each of its percent signs is followed by two
    hexadecimal digits.  A string with a scheme goes on to checks of its
    authority and path that are left to the parameter [absolute]. *)
Definition is_CTL (c : Ascii.ascii) : bool :=
  let n := Ascii.nat_of_ascii c in (n <? 32)%nat || (n =? 127)%nat.

Fixpoint stringContainsCTLByte (s : string) : bool :=
  match s with
  | EmptyString => false
  | String c s' => is_CTL c || stringContainsCTLByte s'
  end.

Definition is_letter (c : Ascii.ascii) : bool :=
  let n := Ascii.nat_of_ascii c in
  ((97 <=? n)%nat && (n <=? 122)%nat) || ((65 <=? n)%nat && (n <=? 90)%nat).

Definition is_digit (c : Ascii.ascii) : bool :=
  let n := Ascii.nat_of_ascii c in (48 <=? n)%nat && (n <=? 57)%nat.

Definition ishex (c : Ascii.ascii) : bool :=
  let n := Ascii.nat_of_ascii c in
  is_digit c || ((97 <=? n)%nat && (n <=? 102)%nat) || ((65 <=? n)%nat && (n <=? 70)%nat).

(** [getScheme]: [i] is the index of the character looked at, [scheme] the
    characters before it, [s] the rest. *)
Fixpoint getScheme_loop (rawURL : string) (i : nat) (scheme s : string)
  : outcome (string * string) :=
  match s with
  | EmptyString => Ok (EmptyString, rawURL)
  | String c s' =>
      if is_letter c then getScheme_loop rawURL (S i) (scheme +:+ String c EmptyString) s'
      else if is_digit c || Ascii.eqb c "+"%char || Ascii.eqb c "-"%char || Ascii.eqb c "."%char then
        if (i =? 0)%nat then Ok (EmptyString, rawURL)
        else getScheme_loop rawURL (S i) (scheme +:+ String c EmptyString) s'
      else if Ascii.eqb c ":"%char then
        if (i =? 0)%nat then Err (foreignError NetURL "missing protocol scheme")
        else Ok (scheme, s')
      else Ok (EmptyString, rawURL)
  end.

Definition getScheme (rawURL : string) : outcome (string * string) :=
  getScheme_loop rawURL 0 EmptyString rawURL.

(** The part of [s] before its first question mark. *)
Fixpoint before_query (s : string) : string :=
  match s with
  | EmptyString => EmptyString
  | String c s' => if Ascii.eqb c "?"%char then EmptyString else String c (before_query s')
  end.

(** [unescape] in path mode fails on a percent sign that is not followed
    by two hexadecimal digits. *)
Fixpoint bad_escape (s : string) : bool :=
  match s with
  | EmptyString => false
  | String c s' =>
      if Ascii.eqb c "%"%char then
        match s' with
        | String a (String b s'') => if ishex a && ishex b then bad_escape s'' else true
        | _ => true
        end
      else bad_escape s'
  end.

Definition net_url_ParseRequestURI (absolute : string → string → option error)
    (rawURL : string) : option error :=
  if stringContainsCTLByte rawURL then
    Some (foreignError NetURL "net/url: invalid control character in URL")
  else if String.eqb rawURL EmptyString then Some (foreignError NetURL "empty url")
  else if String.eqb rawURL "*" then None
  else
    match getScheme rawURL with
    | Err e => Some e
    | Panic msg => Some (foreignError NetURL msg)
    | Ok (scheme, rest) =>
        if negb (String.eqb scheme EmptyString) then absolute scheme rest
        else
          let rest := before_query rest in
          if negb (String.prefix "/" rest) then
            Some (foreignError NetURL "invalid URI for request")
          else if bad_escape rest then Some (foreignError NetURL "invalid URL escape")
          else None
    end.

(** A string can only be an absolute URL if it begins with a scheme and a
    colon (RFC 3986: absolute-URI = scheme ":" hier-part). *)
Definition has_scheme (rawurl : string) : bool :=
  match getScheme rawurl with
  | Ok (scheme, _) => negb (String.eqb scheme EmptyString)
  | _ => false
  end.

(** The example engine behind this validator; a string with a scheme is let
    through without further checks. *)
Definition engine_net_url : Engine string :=
  {| ParseRequestURI := net_url_ParseRequestURI (λ _ _, None);
     TempFile := TempFile engine_example; Run := Run engine_example;
     Marshal := Marshal engine_example; Unmarshal := Unmarshal engine_example |}.

(** * Properties of the pool *)

Section PoolLemmas.

Implicit Types (p : workersPool) (i j k n : nat) (h : Phantom).

Lemma getPhantom_loop_all_used n i p :
  (∀ j, (i ≤ j < i + n)%nat → used p !! j = Some true) →
  getPhantom_loop n i p = (Err ErrNoFreePhantom, p).
Proof.
  revert i. induction n as [|n IH]; intros i Hall; simpl; [done|].
  rewrite (Hall i) by lia. apply IH. intros j Hj. apply Hall. lia.
Qed.

Lemma getPhantom_loop_first_free n i k h p :
  (i ≤ k < i + n)%nat →
  used p !! k = Some false →
  (∀ j, (i ≤ j < k)%nat → used p !! j = Some true) →
  workers p !! k = Some h →
  getPhantom_loop n i p = (Ok h, set_used p (<[k := true]> (used p))).
Proof.
  revert i. induction n as [|n IH]; intros i Hk Hfree Hbefore Hw; [lia|].
  simpl. destruct (decide (i = k)) as [->|Hne].
  - rewrite Hfree. simpl. by rewrite Hw.
  - rewrite (Hbefore i) by lia. apply IH; [lia|done| |done].
    intros j Hj. apply Hbefore. lia.
Qed.

(** Every flag list is either all set or has a first clear flag. *)
Lemma first_free_or_full (l : list bool) :
  (∀ j, (j < length l)%nat → l !! j = Some true) ∨
  (∃ k, l !! k = Some false ∧ ∀ j, (j < k)%nat → l !! j = Some true).
Proof.
  induction l as [|b l IH].
  - left. simpl. intros j Hj. lia.
  - destruct b.
    + destruct IH as [Hall | (k & Hk & Hbefore)].
      * left. intros [|j] Hj; simpl in *; [done|]. apply Hall. lia.
      * right. exists (S k). split; [done|].
        intros [|j] Hj; simpl; [done|]. apply Hbefore. lia.
    + right. exists 0%nat. split; [done|]. intros j Hj. lia.
Qed.

Lemma releasePhantom_loop_absent n i h p :
  (i + n ≤ length (workers p))%nat →
  (∀ j, (i ≤ j < i + n)%nat → workers p !! j ≠ Some h) →
  releasePhantom_loop n i h p = (Err ErrReleasePhantom, p).
Proof.
  revert i. induction n as [|n IH]; intros i Hlen Habs; simpl; [done|].
  destruct (workers p !! i) as [w|] eqn:Hw.
  - destruct (decide (w = h)) as [->|Hne].
    + exfalso. by apply (Habs i); [lia|].
    + apply IH; [lia|]. intros j Hj. apply Habs. lia.
  - apply lookup_ge_None in Hw. lia.
Qed.

Lemma releasePhantom_loop_first n i k h p :
  (i ≤ k < i + n)%nat →
  (k < length (used p))%nat →
  workers p !! k = Some h →
  (∀ j, (i ≤ j < k)%nat → ∃ w, workers p !! j = Some w ∧ w ≠ h) →
  releasePhantom_loop n i h p = (Ok (), set_used p (<[k := false]> (used p))).
Proof.
  revert i. induction n as [|n IH]; intros i Hk Hlen Hw Hbefore; [lia|].
  simpl. destruct (decide (i = k)) as [->|Hne].
  - rewrite Hw. rewrite decide_True by done.
    destruct (used p !! k) eqn:Hu; [done|].
    apply lookup_ge_None in Hu. lia.
  - destruct (Hbefore i) as (w & Hwi & Hwh); [lia|].
    rewrite Hwi. rewrite decide_False by done.
    apply IH; [lia|done|done|]. intros j Hj. apply Hbefore. lia.
Qed.

(** The first position of a handle that occurs in a list. *)
Lemma first_occurrence (ws : list Phantom) h j :
  ws !! j = Some h →
  ∃ k, (k ≤ j)%nat ∧ ws !! k = Some h ∧
       ∀ i, (i < k)%nat → ∃ w, ws !! i = Some w ∧ w ≠ h.
Proof.
  revert j. induction ws as [|w ws IH]; intros j Hj; [done|].
  destruct (decide (w = h)) as [->|Hne].
  - exists 0%nat. split; [lia|]. split; [done|]. intros i Hi. lia.
  - destruct j as [|j]; simpl in Hj; [congruence|].
    destruct (IH j Hj) as (k & Hkj & Hk & Hbefore).
    exists (S k). split; [lia|]. split; [done|].
    intros [|i] Hi; simpl; [eauto|]. apply Hbefore. lia.
Qed.

Lemma wf_size p : wf p → Z.to_nat (size p) = length (used p).
Proof. intros [-> _]. lia. Qed.

Lemma getPhantom_full p :
  wf p →
  (∀ j, (j < length (used p))%nat → used p !! j = Some true) →
  getPhantom p = (Err ErrNoFreePhantom, p).
Proof.
  intros Hwf Hall. unfold getPhantom. rewrite (wf_size p Hwf).
  apply getPhantom_loop_all_used. intros j Hj. apply Hall. lia.
Qed.

Lemma getPhantom_first_free p k :
  wf p →
  used p !! k = Some false →
  (∀ j, (j < k)%nat → used p !! j = Some true) →
  ∃ h, workers p !! k = Some h ∧
       getPhantom p = (Ok h, set_used p (<[k := true]> (used p))).
Proof.
  intros Hwf Hk Hbefore.
  pose proof (lookup_lt_Some _ _ _ Hk) as Hlt.
  destruct (lookup_lt_is_Some_2 (workers p) k) as [h Hh].
  { destruct Hwf as [_ ->]. done. }
  exists h. split; [done|]. unfold getPhantom. rewrite (wf_size p Hwf).
  apply getPhantom_loop_first_free; [lia|done| |done].
  intros j Hj. apply Hbefore. lia.
Qed.

Lemma releasePhantom_absent p h :
  wf p → h ∉ workers p → releasePhantom h p = (Err ErrReleasePhantom, p).
Proof.
  intros Hwf Hnotin. unfold releasePhantom. rewrite (wf_size p Hwf).
  apply releasePhantom_loop_absent.
  - destruct Hwf as [_ ->]. lia.
  - intros j _ Hj. apply Hnotin. by eapply list_elem_of_lookup_2.
Qed.

Lemma releasePhantom_first p h k :
  wf p →
  workers p !! k = Some h →
  (∀ i, (i < k)%nat → ∃ w, workers p !! i = Some w ∧ w ≠ h) →
  releasePhantom h p = (Ok (), set_used p (<[k := false]> (used p))).
Proof.
  intros Hwf Hk Hbefore.
  pose proof (lookup_lt_Some _ _ _ Hk) as Hlt.
  unfold releasePhantom. rewrite (wf_size p Hwf).
  destruct Hwf as [_ Hlen]. rewrite Hlen in Hlt.
  apply releasePhantom_loop_first; [lia|done|done|].
  intros j Hj. apply Hbefore. lia.
Qed.

Lemma wf_set_used p u : wf p → length u = length (used p) → wf (set_used p u).
Proof. intros [Hs Hl] Hu. split; simpl; [by rewrite Hu | by rewrite Hu]. Qed.

End PoolLemmas.

Section PoolCases.

Implicit Types (p : workersPool) (i j k n : nat) (h : Phantom).

Lemma set_used_id p : set_used p (used p) = p.
Proof. by destruct p. Qed.

(** What [getPhantom] does on a well-formed pool, by cases. *)
Lemma getPhantom_cases p :
  wf p →
  ((∀ j, (j < length (used p))%nat → used p !! j = Some true) ∧
   getPhantom p = (Err ErrNoFreePhantom, p)) ∨
  (∃ k h, used p !! k = Some false ∧
          (∀ j, (j < k)%nat → used p !! j = Some true) ∧
          workers p !! k = Some h ∧
          getPhantom p = (Ok h, set_used p (<[k := true]> (used p)))).
Proof.
  intros Hwf. destruct (first_free_or_full (used p)) as [Hall | (k & Hk & Hbefore)].
  - left. split; [done|]. by apply getPhantom_full.
  - right. destruct (getPhantom_first_free p k Hwf Hk Hbefore) as (h & Hh & Hget).
    by exists k, h.
Qed.

(** What [releasePhantom] does on a well-formed pool, by cases. *)
Lemma releasePhantom_cases p h :
  wf p →
  ((h ∉ workers p) ∧ releasePhantom h p = (Err ErrReleasePhantom, p)) ∨
  (∃ k, workers p !! k = Some h ∧
        (∀ i, (i < k)%nat → ∃ w, workers p !! i = Some w ∧ w ≠ h) ∧
        (k < length (used p))%nat ∧
        releasePhantom h p = (Ok (), set_used p (<[k := false]> (used p)))).
Proof.
  intros Hwf. destruct (decide (h ∈ workers p)) as [Hin | Hnotin].
  - right. apply list_elem_of_lookup_1 in Hin as [j Hj].
    destruct (first_occurrence _ _ _ Hj) as (k & _ & Hk & Hbefore).
    exists k. split; [done|]. split; [done|]. split.
    + destruct Hwf as [_ <-]. by eapply lookup_lt_Some.
    + by apply releasePhantom_first.
  - left. split; [done|]. by apply releasePhantom_absent.
Qed.

(** Neither operation touches [workers], [size] or the number of flags. *)
Lemma step_frame o p :
  wf p →
  workers (step o p) = workers p ∧ size (step o p) = size p ∧
  length (used (step o p)) = length (used p).
Proof.
  intros Hwf. destruct o as [|h]; simpl.
  - destruct (getPhantom_cases p Hwf) as [[_ ->] | (k & h & _ & _ & _ & ->)]; simpl;
      by rewrite ?length_insert.
  - destruct (releasePhantom_cases p h Hwf) as [[_ ->] | (k & _ & _ & _ & ->)]; simpl;
      by rewrite ?length_insert.
Qed.

Lemma step_wf o p : wf p → wf (step o p).
Proof.
  intros Hwf. destruct (step_frame o p Hwf) as (Hw & Hs & Hl).
  destruct Hwf as [Hsize Hlen]. split; congruence.
Qed.

Lemma reachable_frame p0 p :
  wf p0 → reachable p0 p →
  wf p ∧ workers p = workers p0 ∧ size p = size p0 ∧
  length (used p) = length (used p0).
Proof.
  intros Hwf0. induction 1 as [|o p _ (Hwf & Hw & Hs & Hl)]; [done|].
  destruct (step_frame o p Hwf) as (Hw' & Hs' & Hl').
  split; [by apply step_wf|]. split; [congruence|]. split; congruence.
Qed.

(** Counting the flags that are set. *)
Lemma count_set_le (l : list bool) :
  (length (filter (λ b, b = true) l) ≤ length l)%nat.
Proof. apply length_filter. Qed.

Lemma count_set_insert (l : list bool) k :
  l !! k = Some false →
  length (filter (λ b, b = true) (<[k := true]> l))
  = S (length (filter (λ b, b = true) l)).
Proof.
  revert k. induction l as [|b l IH]; intros k Hk; [done|].
  destruct k as [|k].
  - injection Hk as ->. change (<[0%nat := true]> (false :: l)) with (true :: l).
    rewrite filter_cons_True by done.
    by rewrite filter_cons_False by done.
  - change (<[S k := true]> (b :: l)) with (b :: <[k := true]> l).
    change ((b :: l) !! S k) with (l !! k) in Hk.
    destruct b.
    + rewrite !filter_cons_True by done. simpl. by rewrite IH.
    + rewrite !filter_cons_False by done. by apply IH.
Qed.

Lemma count_set_full (l : list bool) :
  (length l ≤ length (filter (λ b, b = true) l))%nat →
  ∀ j, (j < length l)%nat → l !! j = Some true.
Proof.
  induction l as [|b l IH]; intros Hlen j Hj; simpl in *; [lia|].
  pose proof (count_set_le l) as Hle.
  destruct b.
  - rewrite filter_cons_True in Hlen by done. simpl in Hlen.
    destruct j as [|j]; [done|]. simpl. apply IH; lia.
  - rewrite filter_cons_False in Hlen by done. lia.
Qed.

Lemma acquire_n_count n p p' :
  wf p → acquire_n n p = Some p' →
  wf p' ∧ workers p' = workers p ∧ size p' = size p ∧
  length (used p') = length (used p) ∧ in_use p' = (in_use p + n)%nat.
Proof.
  revert p. induction n as [|n IH]; intros p Hwf Hacq; simpl in Hacq.
  - injection Hacq as <-. do 4 (split; [done|]). lia.
  - destruct (getPhantom_cases p Hwf) as [[_ Hget] | (k & h & Hk & _ & _ & Hget)];
      rewrite Hget in Hacq; [done|].
    destruct (IH _ (wf_set_used p _ Hwf (length_insert _ _ _)) Hacq)
      as (Hwf' & Hw & Hs & Hl & Hc).
    split; [done|]. split; [done|]. split; [done|]. split.
    + by rewrite Hl; simpl; rewrite length_insert.
    + rewrite Hc. unfold in_use. simpl. rewrite (count_set_insert _ _ Hk). lia.
Qed.

Lemma acquire_more_full m p :
  getPhantom p = (Err ErrNoFreePhantom, p) → acquire_more m p = p.
Proof. intros Hget. induction m as [|m IH]; simpl; [done|]. by rewrite Hget. Qed.

(** A pool that [New] returns. *)
Lemma New_loop_frame n i Start p p0 :
  New_loop n i Start p = Ok p0 →
  used p0 = used p ∧ size p0 = size p ∧ length (workers p0) = length (workers p).
Proof.
  revert i p. induction n as [|n IH]; intros i p Hnew; simpl in Hnew.
  - by injection Hnew as <-.
  - destruct (Start i) as [w|[msg|src msg]|msg]; try done.
    destruct (decide _); [|done].
    destruct (IH _ _ Hnew) as (Hu & Hs & Hl). simpl in *.
    by rewrite length_insert in Hl.
Qed.

Lemma New_wf maxLen N Start p0 :
  New maxLen N Start = Ok p0 →
  0 ≤ N ≤ maxLen ∧ wf p0 ∧ size p0 = N ∧ used p0 = replicate (Z.to_nat N) false.
Proof.
  unfold New. destruct (Z.ltb_spec N 0) as [Hneg | Hpos]; [done|].
  destruct (Z.ltb_spec maxLen N) as [Hbig | Hfits]; [done|].
  simpl. intros Hnew. destruct (New_loop_frame _ _ _ _ _ Hnew) as (Hu & Hs & Hl).
  simpl in *. rewrite length_replicate in Hl.
  split; [done|]. split; [|done]. split.
  - rewrite Hu, Hs, length_replicate. lia.
  - by rewrite Hu, Hl, length_replicate.
Qed.

End PoolCases.

Section PoolCapacity.

Implicit Types (p : workersPool) (i j k n : nat) (h : Phantom).

Lemma count_set_all (l : list bool) :
  (∀ j, (j < length l)%nat → l !! j = Some true) →
  length (filter (λ b, b = true) l) = length l.
Proof.
  induction l as [|b l IH]; intros Hall; [done|].
  assert (b = true) as ->.
  { specialize (Hall 0%nat). simpl in Hall. injection Hall; [done|lia]. }
  rewrite filter_cons_True by done. simpl. f_equal. apply IH.
  intros j Hj. apply (Hall (S j)). simpl. lia.
Qed.

(** As long as a flag is clear, acquisitions succeed. *)
Lemma acquire_n_succeeds n p :
  wf p → (in_use p + n ≤ length (used p))%nat → is_Some (acquire_n n p).
Proof.
  revert p. induction n as [|n IH]; intros p Hwf Hroom; simpl; [by eexists|].
  destruct (getPhantom_cases p Hwf) as [[Hall _] | (k & h & Hk & _ & _ & ->)].
  - apply count_set_all in Hall. unfold in_use in Hroom. lia.
  - apply IH.
    + apply wf_set_used; [done|]. apply length_insert.
    + unfold in_use in *. simpl. rewrite (count_set_insert _ _ Hk), length_insert. lia.
Qed.

(** A pool with a clear flag hands out a handle. *)
Lemma getPhantom_succeeds p k :
  wf p → used p !! k = Some false → ∃ h q, getPhantom p = (Ok h, q).
Proof.
  intros Hwf Hk.
  destruct (getPhantom_cases p Hwf) as [[Hall _] | (k' & h & _ & _ & _ & ->)].
  - rewrite (Hall k) in Hk; [done|]. by eapply lookup_lt_Some.
  - by eexists _, _.
Qed.

End PoolCapacity.

Example New_3 : New maxLen_example 3 start3 = Ok pool3.
Proof. reflexivity. Qed.

Example pool3_busy_reachable : reachable pool3 pool3_busy.
Proof. apply (reachable_step pool3 Acquire pool3), reachable_init. Qed.

(** * The claims about the pool *)

(** C2.  A pool built by [New N] keeps, in every state reachable through
    [getPhantom] and [releasePhantom] calls (with any arguments), [N] handles
    and [N] flags, its [size] stays [N], and at most [N] flags are set.
    From such a state [n] acquisitions in a row all succeed exactly when
    [n] flags were still clear; once [N] acquisitions in a row have
    succeeded, every further [getPhantom] returns [ErrNoFreePhantom] and
    changes nothing, however often it is repeated, and after a successful
    [releasePhantom] the next [getPhantom] succeeds again. *)
Theorem pool_capacity_invariant (maxLen N : Z) (Start : nat → outcome Phantom)
    (p0 p : workersPool) :
  New maxLen N Start = Ok p0 →
  reachable p0 p →
  length (workers p) = Z.to_nat N ∧
  length (used p) = Z.to_nat N ∧
  size p = N ∧
  (in_use p ≤ Z.to_nat N)%nat ∧
  (∀ n, is_Some (acquire_n n p) ↔ (in_use p + n ≤ Z.to_nat N)%nat) ∧
  (∀ p', acquire_n (Z.to_nat N) p = Some p' →
     (∀ m, getPhantom (acquire_more m p') = (Err ErrNoFreePhantom, p')) ∧
     (∀ h p'', releasePhantom h p' = (Ok (), p'') →
        ∃ h' q, getPhantom p'' = (Ok h', q))).
Proof.
  intros Hnew Hreach.
  destruct (New_wf _ _ _ _ Hnew) as (HN & Hwf0 & Hsize0 & Hused0).
  destruct (reachable_frame _ _ Hwf0 Hreach) as (Hwf & Hw & Hs & Hl).
  assert (length (used p) = Z.to_nat N) as Hlen.
  { by rewrite Hl, Hused0, length_replicate. }
  split; [destruct Hwf as [_ ->]; done|].
  split; [done|]. split; [congruence|].
  split; [rewrite <- Hlen; apply count_set_le|].
  split.
  - intros n. split.
    + intros [p' Hacq].
      destruct (acquire_n_count _ _ _ Hwf Hacq) as (_ & _ & _ & Hl' & Hc).
      rewrite <- Hlen, <- Hl', <- Hc. apply count_set_le.
    + intros Hroom. apply acquire_n_succeeds; [done|lia].
  - intros p' Hacq.
    destruct (acquire_n_count _ _ _ Hwf Hacq) as (Hwf' & _ & _ & Hl' & Hc).
    assert (getPhantom p' = (Err ErrNoFreePhantom, p')) as Hfull.
    { apply getPhantom_full; [done|]. apply count_set_full.
      unfold in_use in Hc. lia. }
    split.
    + intros m. by rewrite (acquire_more_full m p' Hfull).
    + intros h p'' Hrel.
      destruct (releasePhantom_cases p' h Hwf') as [[_ Herr] | (k & _ & _ & Hk & Hok)].
      * rewrite Herr in Hrel. done.
      * rewrite Hok in Hrel. injection Hrel as <-.
        apply (getPhantom_succeeds _ k).
        -- apply wf_set_used; [done|]. apply length_insert.
        -- simpl. by apply list_lookup_insert_eq.
Qed.

Lemma pool_capacity_invariant_witness :
  New maxLen_example 3 start3 = Ok pool3 ∧ reachable pool3 pool3_busy ∧
  length (workers pool3_busy) = 3%nat ∧ size pool3_busy = 3 ∧
  (in_use pool3_busy ≤ 3)%nat.
Proof.
  split; [reflexivity|]. split; [exact pool3_busy_reachable|].
  destruct (pool_capacity_invariant maxLen_example 3 start3 pool3 pool3_busy
              eq_refl pool3_busy_reachable)
    as (Hw & _ & Hs & Hc & _).
  exact (conj Hw (conj Hs Hc)).
Defined.

(** C4.  On a pool of the shape [New] builds, [getPhantom] looks at the
    flags in index order: when flag [k] is clear and every flag before it is
    set, it sets flag [k] (and nothing else) and returns the handle stored at
    index [k]; when every flag is set it returns [ErrNoFreePhantom] and the
    pool is unchanged.  One of the two cases always applies. *)
Theorem getPhantom_first_free_in_order (p : workersPool) :
  wf p →
  (∀ k, used p !! k = Some false →
        (∀ j, (j < k)%nat → used p !! j = Some true) →
        ∃ h, workers p !! k = Some h ∧
             getPhantom p
             = (Ok h, {| used := <[k := true]> (used p);
                         workers := workers p; size := size p |})) ∧
  ((∀ j, (j < length (used p))%nat → used p !! j = Some true) →
   getPhantom p = (Err ErrNoFreePhantom, p)) ∧
  ((∃ k, used p !! k = Some false ∧ ∀ j, (j < k)%nat → used p !! j = Some true) ∨
   (∀ j, (j < length (used p))%nat → used p !! j = Some true)).
Proof.
  intros Hwf. split; [|split].
  - intros k Hk Hbefore. exact (getPhantom_first_free p k Hwf Hk Hbefore).
  - intros Hall. by apply getPhantom_full.
  - destruct (first_free_or_full (used p)) as [Hall | Hsome]; [by right | by left].
Qed.

Lemma getPhantom_first_free_in_order_witness :
  wf pool3_busy ∧
  getPhantom pool3_busy
  = (Ok (Ptr 2), {| used := [true; true; false];
                    workers := [Ptr 1; Ptr 2; Ptr 3]; size := 3 |}).
Proof.
  assert (wf pool3_busy) as Hwf by (split; reflexivity).
  split; [exact Hwf|].
  destruct (getPhantom_first_free_in_order pool3_busy Hwf) as (Hfirst & _ & _).
  destruct (Hfirst 1%nat eq_refl) as (h & Hh & Hget).
  - intros [|j] Hj; [reflexivity | lia].
  - injection Hh as <-. exact Hget.
Defined.

(** C5.  Releasing a handle that is not stored in the pool returns
    [ErrReleasePhantom] and leaves the pool (flags, handles, size) as it
    was. *)
Theorem releasePhantom_foreign_handle (p : workersPool) (phantom : Phantom) :
  wf p →
  phantom ∉ workers p →
  releasePhantom phantom p = (Err ErrReleasePhantom, p).
Proof. intros Hwf Hnotin. by apply releasePhantom_absent. Qed.

Lemma releasePhantom_foreign_handle_witness :
  wf pool3_busy ∧ (Ptr 7 ∉ workers pool3_busy) ∧
  releasePhantom (Ptr 7) pool3_busy = (Err ErrReleasePhantom, pool3_busy).
Proof.
  assert (wf pool3_busy) as Hwf by (split; reflexivity).
  assert (Ptr 7 ∉ workers pool3_busy) as Hnotin.
  { simpl. intros Hin. repeat (apply elem_of_cons in Hin as [Heq | Hin]; [discriminate Heq|]).
    by apply elem_of_nil in Hin. }
  split; [exact Hwf|]. split; [exact Hnotin|].
  exact (releasePhantom_foreign_handle pool3_busy (Ptr 7) Hwf Hnotin).
Defined.

(** C8.  Releasing a handle that is stored in the pool succeeds, and doing
    it a second time succeeds again and changes nothing more (no
    double-release detection).  A position that holds the handle and whose
    flag is clear keeps its flag clear; when every position holding the
    handle is already free the pool is unchanged. *)
Theorem releasePhantom_free_handle (p : workersPool) (phantom : Phantom) (j : nat) :
  wf p →
  workers p !! j = Some phantom →
  ∃ p', releasePhantom phantom p = (Ok (), p') ∧
        releasePhantom phantom p' = (Ok (), p') ∧
        workers p' = workers p ∧ size p' = size p ∧
        (used p !! j = Some false → used p' !! j = Some false) ∧
        ((∀ i, workers p !! i = Some phantom → used p !! i = Some false) → p' = p).
Proof.
  intros Hwf Hj.
  destruct (first_occurrence _ _ _ Hj) as (k & Hkj & Hk & Hbefore).
  pose proof (releasePhantom_first p phantom k Hwf Hk Hbefore) as Hrel.
  exists (set_used p (<[k := false]> (used p))).
  split; [done|]. split; [|split; [done|split; [done|split]]].
  - rewrite (releasePhantom_first _ phantom k); [| |done|done].
    + simpl. unfold set_used. simpl. by rewrite list_insert_insert_eq.
    + apply wf_set_used; [done|]. apply length_insert.
  - intros Hfree. simpl. destruct (decide (k = j)) as [->|Hne].
    + apply list_lookup_insert_eq. by eapply lookup_lt_Some.
    + by rewrite list_lookup_insert_ne.
  - intros Hall. rewrite (list_insert_id _ _ _ (Hall k Hk)). apply set_used_id.
Qed.

Lemma releasePhantom_free_handle_witness :
  wf pool3_busy ∧ workers pool3_busy !! 1%nat = Some (Ptr 2) ∧
  releasePhantom (Ptr 2) pool3_busy = (Ok (), pool3_busy).
Proof.
  assert (wf pool3_busy) as Hwf by (split; reflexivity).
  split; [exact Hwf|]. split; [reflexivity|].
  destruct (releasePhantom_free_handle pool3_busy (Ptr 2) 1 Hwf eq_refl)
    as (p' & Hrel & _ & _ & _ & _ & Hsame).
  rewrite Hrel. f_equal. apply Hsame.
  intros [|[|[|i]]] Hi; simpl in Hi; try discriminate Hi. reflexivity.
Defined.

(** C9.  When the stored handles are pairwise distinct and [getPhantom]
    returns handle [h], releasing [h] straight away succeeds and gives back
    exactly the pool from before the acquisition. *)
Theorem getPhantom_releasePhantom_roundtrip (p p1 : workersPool) (h : Phantom) :
  wf p →
  NoDup (workers p) →
  getPhantom p = (Ok h, p1) →
  releasePhantom h p1 = (Ok (), p).
Proof.
  intros Hwf Hnodup Hget.
  destruct (getPhantom_cases p Hwf) as [[_ Herr] | (k & h' & Hk & _ & Hh & Hok)].
  { rewrite Herr in Hget. done. }
  rewrite Hok in Hget. injection Hget as -> <-.
  rewrite (releasePhantom_first _ h k).
  - unfold set_used. simpl. rewrite list_insert_insert_eq.
    rewrite (list_insert_id _ _ _ Hk). by destruct p.
  - apply wf_set_used; [done|]. apply length_insert.
  - done.
  - intros i Hi. simpl.
    destruct (lookup_lt_is_Some_2 (workers p) i) as [w Hw].
    { apply lookup_lt_Some in Hh. lia. }
    exists w. split; [done|]. intros ->.
    pose proof (NoDup_lookup _ _ _ _ Hnodup Hw Hh). lia.
Qed.

Lemma getPhantom_releasePhantom_roundtrip_witness :
  wf pool3_busy ∧ NoDup (workers pool3_busy) ∧
  releasePhantom (Ptr 2) (getPhantom pool3_busy).2 = (Ok (), pool3_busy).
Proof.
  assert (wf pool3_busy) as Hwf by (split; reflexivity).
  assert (NoDup (workers pool3_busy)) as Hnodup.
  { apply (@bool_decide_unpack _ (NoDup_dec (workers pool3_busy))). vm_compute. exact I. }
  split; [exact Hwf|]. split; [exact Hnodup|].
  exact (getPhantom_releasePhantom_roundtrip pool3_busy _ (Ptr 2) Hwf Hnodup eq_refl).
Defined.

(** * The retry loop *)

Section RetryLemmas.

Implicit Types (f : workersPool → outcome Phantom * workersPool) (w : world).

Lemma wrap_int_small z : in_int z → wrap_int z = z.
Proof.
  unfold in_int, int_min, int_max, wrap_int. intros Hz.
  rewrite Z.mod_small; lia.
Qed.

Lemma in_int_1 : in_int 1.
Proof. split; intros H; discriminate H. Qed.

Lemma wrap_int_range z : in_int (wrap_int z).
Proof.
  unfold in_int, int_min, int_max, wrap_int.
  pose proof (Z.mod_pos_bound (z + 2 ^ 63) (2 ^ 64)). lia.
Qed.

Lemma failed_rounds_cons e es :
  failed_rounds (e :: es) = EvGetPhantom (Err e) :: EvSleep retry_interval :: failed_rounds es.
Proof. reflexivity. Qed.

Lemma sleeps_failed_rounds es : sleeps (failed_rounds es) = length es.
Proof.
  induction es as [|e es IH]; [done|].
  rewrite failed_rounds_cons. unfold sleeps in *.
  rewrite filter_cons_False by done. rewrite filter_cons_True by done.
  simpl. by rewrite IH.
Qed.

Lemma attempts_failed_rounds es : attempts (failed_rounds es) = length es.
Proof.
  induction es as [|e es IH]; [done|].
  rewrite failed_rounds_cons. unfold attempts in *.
  rewrite filter_cons_True by done. rewrite filter_cons_False by done.
  simpl. by rewrite IH.
Qed.

Lemma attempts_call r : attempts [EvGetPhantom r] = 1%nat.
Proof. reflexivity. Qed.

Lemma attempts_app l1 l2 : attempts (l1 ++ l2) = (attempts l1 + attempts l2)%nat.
Proof. unfold attempts. by rewrite filter_app, length_app. Qed.

Lemma sleeps_app l1 l2 : sleeps (l1 ++ l2) = (sleeps l1 + sleeps l2)%nat.
Proof. unfold sleeps. by rewrite filter_app, length_app. Qed.

Lemma try_run_cons budget e r trace :
  try_run budget r trace →
  try_run (S budget) r (EvGetPhantom (Err e) :: EvSleep retry_interval :: trace).
Proof.
  intros [es h Hlen | es msg Hlen | es Hlen].
  - apply (try_run_ok (S budget) (e :: es) h). simpl. lia.
  - apply (try_run_panic (S budget) (e :: es) msg). simpl. lia.
  - apply (try_run_exhausted (S budget) (e :: es)). simpl. lia.
Qed.

(** With the counter away from [int_max], the loop returns within
    [budget + 1] evaluations of its condition, along an allowed run. *)
Lemma try_loop_returns f maxTries (budget : nat) :
  maxTries < int_max →
  ∀ fuel attempt w,
    1 ≤ attempt →
    Z.of_nat budget = maxTries + 1 - attempt →
    (budget < fuel)%nat →
    ∃ r w' trace,
      try_loop fuel maxTries (acquiring f) attempt w = (Some r, w') ∧
      log w' = log w ++ trace ∧ try_run budget r trace.
Proof.
  intros Hmax. induction budget as [|budget IH]; intros fuel attempt w Hpos Hbudget Hfuel;
    (destruct fuel as [|fuel]; [lia|]); simpl.
  - rewrite (proj2 (Z.leb_gt _ _)) by lia.
    exists (Err ErrMaxWait), w, []. split; [done|]. split; [by rewrite app_nil_r|].
    by apply (try_run_exhausted 0 []).
  - rewrite (proj2 (Z.leb_le _ _)) by lia.
    unfold acquiring at 1. destruct (f (pool w)) as [[h|e|msg] p'] eqn:Hf.
    + eexists _, _, _. split; [done|]. split; [done|].
      apply (try_run_ok (S budget) [] h). simpl. lia.
    + rewrite wrap_int_small by (unfold in_int, int_min, int_max in *; lia).
      destruct (IH fuel (attempt + 1)
                  (Sleep retry_interval
                     {| pool := p'; log := log w ++ [EvGetPhantom (Err e)] |}))
        as (r & w' & trace & Hrun & Hlog & Htrace); [lia|lia|lia|].
      exists r, w', (EvGetPhantom (Err e) :: EvSleep retry_interval :: trace).
      split; [done|]. split.
      * rewrite Hlog. simpl. by rewrite <- !app_assoc.
      * by apply try_run_cons.
    + eexists _, _, _. split; [done|]. split; [done|].
      apply (try_run_panic (S budget) [] msg). simpl. lia.
Qed.

(** The same when no attempt succeeds: the budget is spent in full.  [Inv]
    is any property of the pool that a failed attempt keeps. *)
Lemma try_loop_all_fail (Inv : workersPool → Prop) f maxTries (budget : nat) :
  maxTries < int_max →
  (∀ p, Inv p → ∃ e p', f p = (Err e, p') ∧ Inv p') →
  ∀ fuel attempt w,
    Inv (pool w) →
    1 ≤ attempt →
    Z.of_nat budget = maxTries + 1 - attempt →
    (budget < fuel)%nat →
    ∃ w' es,
      try_loop fuel maxTries (acquiring f) attempt w = (Some (Err ErrMaxWait), w') ∧
      log w' = log w ++ failed_rounds es ∧ length es = budget.
Proof.
  intros Hmax Hfail. induction budget as [|budget IH];
    intros fuel attempt w Hinv Hpos Hbudget Hfuel;
    (destruct fuel as [|fuel]; [lia|]); simpl.
  - rewrite (proj2 (Z.leb_gt _ _)) by lia.
    exists w, []. by rewrite app_nil_r.
  - rewrite (proj2 (Z.leb_le _ _)) by lia.
    unfold acquiring at 1. destruct (Hfail (pool w) Hinv) as (e & p' & -> & Hinv').
    rewrite wrap_int_small by (unfold in_int, int_min, int_max in *; lia).
    destruct (IH fuel (attempt + 1)
                (Sleep retry_interval
                   {| pool := p'; log := log w ++ [EvGetPhantom (Err e)] |}))
      as (w' & es & Hrun & Hlog & Hlen); [done|lia|lia|lia|].
    exists w', (e :: es). split; [done|]. split.
    + rewrite Hlog. simpl. by rewrite <- !app_assoc.
    + simpl. by rewrite Hlen.
Qed.

(** At [maxTries = int_max] the condition [attempt <= maxTries] holds for
    every value of the counter, so a run whose attempts all fail goes on:
    after [fuel] rounds it has not returned and has slept [fuel] times. *)
Lemma try_loop_goes_on (Inv : workersPool → Prop) f :
  (∀ p, Inv p → ∃ e p', f p = (Err e, p') ∧ Inv p') →
  ∀ fuel attempt w,
    Inv (pool w) →
    in_int attempt →
    ∃ w' es,
      try_loop fuel int_max (acquiring f) attempt w = (None, w') ∧
      log w' = log w ++ failed_rounds es ∧ length es = fuel.
Proof.
  intros Hfail. induction fuel as [|fuel IH]; intros attempt w Hinv Hrange; simpl.
  - exists w, []. by rewrite app_nil_r.
  - rewrite (proj2 (Z.leb_le _ _)) by apply Hrange.
    unfold acquiring at 1. destruct (Hfail (pool w) Hinv) as (e & p' & -> & Hinv').
    destruct (IH (wrap_int (attempt + 1))
                (Sleep retry_interval
                   {| pool := p'; log := log w ++ [EvGetPhantom (Err e)] |}))
      as (w' & es & Hrun & Hlog & Hlen); [done|apply wrap_int_range|].
    exists w', (e :: es). split; [done|]. split.
    + rewrite Hlog. simpl. by rewrite <- !app_assoc.
    + simpl. by rewrite Hlen.
Qed.

(** A pool equal to [q] on which [getPhantom] fails stays equal to [q]. *)
Lemma getPhantom_fails_on q :
  getPhantom q = (Err ErrNoFreePhantom, q) →
  ∀ p, p = q → ∃ e p', getPhantom p = (Err e, p') ∧ p' = q.
Proof. intros Hq p ->. by exists ErrNoFreePhantom, q. Qed.

End RetryLemmas.

(** The retry policy, for every budget below the largest [int].  Whatever
    the acquisition function does, [try] returns once the loop condition has
    been evaluated [maxTries + 1] times at most, and what it has done is an
    allowed run: every failed attempt is followed by one sleep of 200 ms and
    the next attempt; a successful attempt is the last event, with no sleep
    and no attempt after it, and its handle is the result; when [maxTries]
    attempts have failed the result is [ErrMaxWait].  So at most [maxTries]
    attempts are made. *)
Theorem try_retry_policy (f : workersPool → outcome Phantom * workersPool)
    (maxTries : Z) (fuel : nat) (w : world) :
  1 ≤ maxTries < int_max →
  (Z.to_nat maxTries < fuel)%nat →
  ∃ r w' trace,
    try fuel maxTries (acquiring f) w = (Some r, w') ∧
    log w' = log w ++ trace ∧
    try_run (Z.to_nat maxTries) r trace ∧
    (attempts trace ≤ Z.to_nat maxTries)%nat.
Proof.
  intros [Hpos Hmax] Hfuel.
  destruct (try_loop_returns f maxTries (Z.to_nat maxTries) Hmax fuel 1 w)
    as (r & w' & trace & Hrun & Hlog & Htrace); [lia|lia|lia|].
  exists r, w', trace. split; [done|]. split; [done|]. split; [done|].
  destruct Htrace as [es h Hlen | es msg Hlen | es Hlen];
    rewrite ?attempts_app, attempts_failed_rounds, ?attempts_call; lia.
Qed.

Lemma try_retry_policy_witness :
  1 ≤ 3 < int_max ∧
  try 4 3 (acquiring third_time_lucky) {| pool := pool1_busy; log := [] |}
  = (Some (Ok (Ptr 1)),
     {| pool := pool3_busy;
        log := [EvGetPhantom (Err ErrNoFreePhantom); EvSleep retry_interval;
                EvGetPhantom (Err ErrNoFreePhantom); EvSleep retry_interval;
                EvGetPhantom (Ok (Ptr 1))] |}).
Proof.
  assert (1 ≤ 3 < int_max) as Hrange by (split; [lia | reflexivity]).
  split; [exact Hrange|].
  destruct (try_retry_policy third_time_lucky 3 4
              {| pool := pool1_busy; log := [] |} Hrange)
    as (r & w' & trace & Hrun & _); [change (3 < 4)%nat; lia|].
  reflexivity.
Defined.

(** The number of sleeps, for every budget below the largest [int].  When
    no attempt succeeds, [try] returns [ErrMaxWait] after exactly [maxTries]
    attempts and exactly [maxTries] sleeps: the last failed attempt is
    followed by a sleep too, and that sleep is the last thing the loop
    does. *)
Theorem try_sleeps_after_every_failure (Inv : workersPool → Prop)
    (f : workersPool → outcome Phantom * workersPool)
    (maxTries : Z) (fuel : nat) (w : world) :
  1 ≤ maxTries < int_max →
  (∀ p, Inv p → ∃ e p', f p = (Err e, p') ∧ Inv p') →
  Inv (pool w) →
  (Z.to_nat maxTries < fuel)%nat →
  ∃ w' trace,
    try fuel maxTries (acquiring f) w = (Some (Err ErrMaxWait), w') ∧
    log w' = log w ++ trace ∧
    attempts trace = Z.to_nat maxTries ∧
    sleeps trace = Z.to_nat maxTries ∧
    last trace = Some (EvSleep retry_interval).
Proof.
  intros [Hpos Hmax] Hfail Hinv Hfuel.
  destruct (try_loop_all_fail Inv f maxTries (Z.to_nat maxTries) Hmax Hfail fuel 1 w)
    as (w' & es & Hrun & Hlog & Hlen); [done|lia|lia|lia|].
  exists w', (failed_rounds es). split; [done|]. split; [done|].
  rewrite attempts_failed_rounds, sleeps_failed_rounds. split; [done|]. split; [done|].
  clear Hrun Hlog. induction es as [|e es' _] using rev_ind; [simpl in Hlen; lia|].
  unfold failed_rounds. rewrite fmap_app, concat_app. simpl.
  change [EvGetPhantom (Err e); EvSleep retry_interval]
    with ([EvGetPhantom (Err e)] ++ [EvSleep retry_interval]).
  by rewrite app_assoc, last_snoc.
Qed.

Lemma try_sleeps_after_every_failure_witness :
  1 ≤ 3 < int_max ∧
  try 4 3 getPhantom_call {| pool := pool1_busy; log := [] |}
  = (Some (Err ErrMaxWait),
     {| pool := pool1_busy;
        log := [EvGetPhantom (Err ErrNoFreePhantom); EvSleep retry_interval;
                EvGetPhantom (Err ErrNoFreePhantom); EvSleep retry_interval;
                EvGetPhantom (Err ErrNoFreePhantom); EvSleep retry_interval] |}).
Proof.
  assert (1 ≤ 3 < int_max) as Hrange by (split; [lia | reflexivity]).
  split; [exact Hrange|].
  destruct (try_sleeps_after_every_failure (λ p, p = pool1_busy) getPhantom 3 4
              {| pool := pool1_busy; log := [] |} Hrange)
    as (w' & trace & Hrun & _).
  - exact (getPhantom_fails_on pool1_busy eq_refl).
  - reflexivity.
  - change (3 < 4)%nat. lia.
  - reflexivity.
Defined.

(** C6.  [try] at the largest budget, [maxTries = int_max], on a pool whose
    only worker stays out: whatever the number [fuel] of rounds allowed,
    the loop has not returned; by then it has made [fuel] attempts, so
    more than [maxTries] of them once [fuel] exceeds [int_max].  The
    counter wraps from [int_max] to [int_min] and [attempt <= maxTries]
    never becomes false. *)
Theorem try_int_max_attempts_unbounded (fuel : nat) :
  ∃ w',
    try fuel int_max getPhantom_call {| pool := pool1_busy; log := [] |} = (None, w') ∧
    attempts (log w') = fuel.
Proof.
  destruct (try_loop_goes_on (λ p, p = pool1_busy) getPhantom
              (getPhantom_fails_on pool1_busy eq_refl) fuel 1
              {| pool := pool1_busy; log := [] |})
    as (w' & es & Hrun & Hlog & Hlen); [done|apply in_int_1|].
  exists w'. split; [done|].
  rewrite Hlog. simpl. by rewrite attempts_failed_rounds.
Qed.

(** C10.  [try] at [maxTries = int_max] on the empty pool of [New 0], where
    every attempt fails: the loop sleeps after every failed attempt and
    never returns [ErrMaxWait]; after [fuel] rounds it is still going and
    has slept [fuel] times. *)
Theorem try_int_max_sleeps_unbounded (fuel : nat) :
  ∃ w',
    try fuel int_max getPhantom_call {| pool := pool0; log := [] |} = (None, w') ∧
    sleeps (log w') = fuel.
Proof.
  destruct (try_loop_goes_on (λ p, p = pool0) getPhantom
              (getPhantom_fails_on pool0 eq_refl) fuel 1
              {| pool := pool0; log := [] |})
    as (w' & es & Hrun & Hlog & Hlen); [done|apply in_int_1|].
  exists w'. split; [done|].
  rewrite Hlog. simpl. by rewrite sleeps_failed_rounds.
Qed.

(** * The orchestrator and the parser *)

Section OrchestratorLemmas.

Context {any : Type} (eng : Engine any).

Lemma range_Responses_id (performance : PageMeasurements) :
  range_Responses performance = performance.
Proof.
  unfold range_Responses.
  induction (map_to_list (Responses performance)) as [|elem l IH]; [done|].
  simpl. unfold range_body at 1. exact IH.
Qed.

(** The retry loop calls nothing but the acquisition function and
    [time.Sleep]. *)
Lemma try_loop_releases_nothing f fuel maxTries :
  ∀ attempt w, ∃ trace,
    log (try_loop fuel maxTries (acquiring f) attempt w).2 = log w ++ trace ∧
    releases trace = [].
Proof.
  induction fuel as [|fuel IH]; intros attempt w; simpl.
  - exists []. by rewrite app_nil_r.
  - destruct (attempt <=? maxTries); [|exists []; by rewrite app_nil_r].
    unfold acquiring at 1. destruct (f (pool w)) as [[h|e|msg] p'].
    + by exists [EvGetPhantom (Ok h)].
    + destruct (IH (wrap_int (attempt + 1))
                  (Sleep retry_interval
                     {| pool := p'; log := log w ++ [EvGetPhantom (Err e)] |}))
        as (trace & -> & Hrel).
      exists (EvGetPhantom (Err e) :: EvSleep retry_interval :: trace).
      split; [simpl; by rewrite <- !app_assoc | done].
    + by exists [EvGetPhantom (Panic msg)].
Qed.

(** [getMeasurementsInternal] leaves the pool alone and releases nothing. *)
Lemma getMeasurementsInternal_frame phantom rawurl thumbnailsDir w :
  ∃ trace,
    log (getMeasurementsInternal eng phantom rawurl thumbnailsDir w).2 = log w ++ trace ∧
    releases trace = [] ∧
    pool (getMeasurementsInternal eng phantom rawurl thumbnailsDir w).2 = pool w.
Proof.
  unfold getMeasurementsInternal, getThumbnailFile.
  destruct (0 <? Z.of_nat (String.length thumbnailsDir)).
  - destruct (TempFile eng thumbnailsDir "thumb") as [file|e|msg].
    + exists [EvTempFile thumbnailsDir; EvRun phantom (getJsFunc rawurl file)].
      destruct (Run eng phantom _) as [result|e|msg]; simpl;
        [destruct (Marshal eng result) as [js|e|msg]; simpl;
         [destruct (Unmarshal eng js) as [perf|e|msg]; simpl|..]|..];
        by rewrite <- app_assoc.
    + by exists [EvTempFile thumbnailsDir].
    + by exists [EvTempFile thumbnailsDir].
  - exists [EvRun phantom (getJsFunc rawurl EmptyString)].
    destruct (Run eng phantom _) as [result|e|msg]; simpl;
      [destruct (Marshal eng result) as [js|e|msg]; simpl;
       [destruct (Unmarshal eng js) as [perf|e|msg]; simpl|..]|..];
      done.
Qed.

(** What [getMeasurementsInternal] returns on success. *)
Lemma getMeasurementsInternal_Ok phantom rawurl thumbnailsDir w performance w' :
  getMeasurementsInternal eng phantom rawurl thumbnailsDir w = (Ok performance, w') →
  ∃ file result jsonResult decoded,
    Run eng phantom (getJsFunc rawurl file) = Ok result ∧
    Marshal eng result = Ok jsonResult ∧
    Unmarshal eng jsonResult = Ok decoded ∧
    LoadTime performance = LoadTime decoded ∧
    Responses performance = Responses decoded ∧
    LoadTimeDuration performance = duration_of_ms (LoadTime decoded) ∧
    ThumbnailFile performance
    = (if 0 <? Z.of_nat (String.length file) then file else ThumbnailFile decoded).
Proof.
  unfold getMeasurementsInternal.
  destruct (getThumbnailFile eng thumbnailsDir w) as [[file|e|msg] w1]; [|done|done].
  destruct (Run eng phantom _) as [result|e|msg] eqn:Hrun; [|done|done].
  destruct (Marshal eng result) as [js|e|msg] eqn:Hmarshal; [|done|done].
  destruct (Unmarshal eng js) as [decoded|e|msg] eqn:Hunmarshal; [|done|done].
  rewrite range_Responses_id. intros [= <- <-].
  exists file, result, js, decoded.
  do 3 (split; [done|]). by destruct (0 <? Z.of_nat (String.length file)).
Qed.

End OrchestratorLemmas.

(** C7, as amended.  The two validations come first, and they are the only
    ways out that leave the pool alone.  When [url.ParseRequestURI] rejects
    the address, [GetMeasurements] returns that error; when it accepts the
    address and [nrOfTries < 1], it returns [ErrNoTries].  In both cases it
    returns at once, with any fuel, and the world is the one it was given:
    the pool is untouched and nothing was called, [getPhantom] included.
    In every other case (address accepted, [nrOfTries >= 1]) the next thing
    it does is a call of [getPhantom]. *)
Theorem GetMeasurements_validates_first {any : Type} (eng : Engine any)
    (fuel : nat) (rawurl : string) (nrOfTries : Z) (thumbnailsDir : string) (w : world) :
  (∀ err, ParseRequestURI eng rawurl = Some err →
     GetMeasurements eng fuel rawurl nrOfTries thumbnailsDir w = (Some (Err err), w)) ∧
  (ParseRequestURI eng rawurl = None → nrOfTries < 1 →
     GetMeasurements eng fuel rawurl nrOfTries thumbnailsDir w = (Some (Err ErrNoTries), w)) ∧
  (ParseRequestURI eng rawurl = None → 1 ≤ nrOfTries → (0 < fuel)%nat →
     ∃ trace,
       log (GetMeasurements eng fuel rawurl nrOfTries thumbnailsDir w).2
       = log w ++ EvGetPhantom (getPhantom (pool w)).1 :: trace).
Proof.
  unfold GetMeasurements. split; [|split].
  - by intros err ->.
  - intros -> Hfew. by rewrite (proj2 (Z.ltb_lt _ _) Hfew).
  - intros -> Htries Hfuel. rewrite (proj2 (Z.ltb_ge _ _)) by lia.
    assert (∀ (t : option (outcome Phantom) * world),
              ∃ trace,
                log (match t with
                     | (None, w1) => (None, w1)
                     | (Some (Err e), w1) => (Some (Err e), w1)
                     | (Some (Panic msg), w1) => (Some (Panic msg), w1)
                     | (Some (Ok phantom), w1) =>
                         let '(r, w2) :=
                           getMeasurementsInternal eng phantom rawurl thumbnailsDir w1 in
                         let '(released, w3) := releasePhantom_call phantom w2 in
                         match released with
                         | Panic msg => (Some (Panic msg), w3)
                         | _ => (Some r, w3)
                         end
                     end).2 = log t.2 ++ trace) as Hrest.
    { intros [[[phantom|e|msg]|] w1]; try (exists []; simpl; by rewrite app_nil_r).
      destruct (getMeasurementsInternal_frame eng phantom rawurl thumbnailsDir w1)
        as (ran & Hlog & _).
      destruct (getMeasurementsInternal eng phantom rawurl thumbnailsDir w1) as [r w2].
      unfold releasePhantom_call.
      destruct (releasePhantom phantom (pool w2)) as [released p3].
      exists (ran ++ [EvReleasePhantom phantom released]).
      simpl in Hlog. destruct released; simpl; by rewrite Hlog, <- app_assoc. }
    destruct fuel as [|fuel]; [lia|].
    destruct (Hrest (try (S fuel) nrOfTries getPhantom_call w)) as (rest & Hlog).
    rewrite Hlog. clear Hlog Hrest. unfold try. cbn [try_loop].
    rewrite (proj2 (Z.leb_le _ _)) by lia.
    unfold getPhantom_call, acquiring at 1.
    destruct (getPhantom (pool w)) as [[h|e|msg] p'].
    + exists rest. simpl. by rewrite <- app_assoc.
    + destruct (try_loop_releases_nothing getPhantom fuel nrOfTries (wrap_int (1 + 1))
                  (Sleep retry_interval
                     {| pool := p'; log := log w ++ [EvGetPhantom (Err e)] |}))
        as (slept & Hlog & _).
      rewrite Hlog. exists (EvSleep retry_interval :: slept ++ rest).
      simpl. by rewrite <- !app_assoc.
    + exists rest. simpl. by rewrite <- app_assoc.
Qed.

Lemma GetMeasurements_validates_first_witness :
  GetMeasurements engine_net_url 0 "not-a-url" 3 EmptyString world3
  = (Some (Err (foreignError NetURL "invalid URI for request")), world3) ∧
  GetMeasurements engine_net_url 0 "http://a" 0 EmptyString world3
  = (Some (Err ErrNoTries), world3) ∧
  GetMeasurements engine_net_url 0 "http://a" (-1) EmptyString world3
  = (Some (Err ErrNoTries), world3).
Proof.
  split; [|split].
  - exact (proj1 (GetMeasurements_validates_first engine_net_url 0 "not-a-url" 3
                    EmptyString world3)
             (foreignError NetURL "invalid URI for request") eq_refl).
  - exact (proj1 (proj2 (GetMeasurements_validates_first engine_net_url 0 "http://a" 0
                           EmptyString world3)) eq_refl eq_refl).
  - exact (proj1 (proj2 (GetMeasurements_validates_first engine_net_url 0 "http://a" (-1)
                           EmptyString world3)) eq_refl eq_refl).
Defined.

(** C7 as stated fails at the address [/x].  It has no scheme, so it is
    not an absolute URL; [url.ParseRequestURI] takes it for an absolute path
    and accepts it; and [GetMeasurements] does not fail with the validation
    error: it calls [getPhantom], takes the first worker, runs the engine on
    [/x] and returns a record.  The same happens for the lone asterisk. *)
Lemma GetMeasurements_accepts_absolute_path :
  has_scheme "/x" = false ∧
  ParseRequestURI engine_net_url "/x" = None ∧
  ParseRequestURI engine_net_url "*" = None ∧
  GetMeasurements engine_net_url 1 "/x" 1 EmptyString world3
  = (Some (Ok (set_LoadTimeDuration 500000000 decoded_example)),
     {| pool := pool3;
        log := [EvGetPhantom (Ok (Ptr 1));
                EvRun (Ptr 1) (getJsFunc "/x" EmptyString);
                EvReleasePhantom (Ptr 1) (Ok ())] |}).
Proof. repeat split; reflexivity. Qed.

(** C3.  Once the retry loop has handed [GetMeasurements] a worker,
    [GetMeasurements] returns, and between its entry and its return
    [releasePhantom] is called exactly once, with that worker, as the last
    thing done.  This holds whatever [getMeasurementsInternal] returns (a
    record, or the error of the thumbnail file, of the engine or of the two
    JSON conversions); that outcome is what [GetMeasurements] returns, unless
    the release itself panics. *)
Theorem GetMeasurements_releases_once {any : Type} (eng : Engine any)
    (fuel : nat) (rawurl : string) (nrOfTries : Z) (thumbnailsDir : string)
    (w w1 : world) (phantom : Phantom) :
  ParseRequestURI eng rawurl = None →
  1 ≤ nrOfTries →
  try fuel nrOfTries getPhantom_call w = (Some (Ok phantom), w1) →
  ∃ result w3 trace released,
    GetMeasurements eng fuel rawurl nrOfTries thumbnailsDir w = (Some result, w3) ∧
    log w3 = log w ++ trace ∧
    releases trace = [phantom] ∧
    last trace = Some (EvReleasePhantom phantom released) ∧
    (result = (getMeasurementsInternal eng phantom rawurl thumbnailsDir w1).1 ∨
     ∃ msg, released = Panic msg ∧ result = Panic msg).
Proof.
  intros Hurl Htries Htry. unfold GetMeasurements.
  rewrite Hurl, (proj2 (Z.ltb_ge _ _)) by lia. rewrite Htry.
  destruct (try_loop_releases_nothing getPhantom fuel nrOfTries 1 w)
    as (acquired & Hlog1 & Hrel1).
  change (try_loop fuel nrOfTries (acquiring getPhantom) 1 w)
    with (try fuel nrOfTries getPhantom_call w) in Hlog1.
  rewrite Htry in Hlog1. simpl in Hlog1.
  destruct (getMeasurementsInternal_frame eng phantom rawurl thumbnailsDir w1)
    as (ran & Hlog2 & Hrel2 & _).
  destruct (getMeasurementsInternal eng phantom rawurl thumbnailsDir w1) as [r w2].
  simpl in Hlog2. unfold releasePhantom_call.
  destruct (releasePhantom phantom (pool w2)) as [released p3].
  set (released_event := EvReleasePhantom phantom released).
  assert (log w2 ++ [released_event] = log w ++ (acquired ++ ran ++ [released_event]) ∧
          releases (acquired ++ ran ++ [released_event]) = [phantom] ∧
          last (acquired ++ ran ++ [released_event]) = Some released_event)
    as (H1 & H2 & H3).
  { split; [|split].
    - by rewrite Hlog2, Hlog1, <- !app_assoc.
    - unfold releases in *. by rewrite !omap_app, Hrel1, Hrel2.
    - by rewrite !app_assoc, last_snoc. }
  exists (match released with Panic msg => Panic msg | _ => r end),
    {| pool := p3; log := log w2 ++ [released_event] |},
    (acquired ++ ran ++ [released_event]), released.
  split; [by destruct released|]. split; [exact H1|]. split; [exact H2|].
  split; [exact H3|].
  destruct released as [u|e|msg]; [by left|by left|right; by exists msg].
Qed.

Lemma GetMeasurements_releases_once_witness :
  releases (log (GetMeasurements engine_example 2 "http://a" 3 "/tmp" world3).2)
  = [Ptr 1] ∧
  releases (log (GetMeasurements engine_no_thumbnail 2 "http://a" 3 "/tmp" world3).2)
  = [Ptr 1] ∧
  releases (log (GetMeasurements engine_run_fails 2 "http://a" 3 EmptyString world3).2)
  = [Ptr 1] ∧
  releases (log (GetMeasurements engine_marshal_fails 2 "http://a" 3 EmptyString world3).2)
  = [Ptr 1] ∧
  releases (log (GetMeasurements engine_unmarshal_fails 2 "http://a" 3 EmptyString world3).2)
  = [Ptr 1].
Proof.
  assert (1 ≤ 3) as Htries by lia.
  split; [|split; [|split; [|split]]].
  - destruct (GetMeasurements_releases_once engine_example 2 "http://a" 3 "/tmp"
                world3 world3_acquired (Ptr 1) eq_refl Htries eq_refl)
      as (result & w3 & trace & released & Hget & Hlog & Hrel & _).
    rewrite Hget. simpl. rewrite Hlog. exact Hrel.
  - destruct (GetMeasurements_releases_once engine_no_thumbnail 2 "http://a" 3 "/tmp"
                world3 world3_acquired (Ptr 1) eq_refl Htries eq_refl)
      as (result & w3 & trace & released & Hget & Hlog & Hrel & _).
    rewrite Hget. simpl. rewrite Hlog. exact Hrel.
  - destruct (GetMeasurements_releases_once engine_run_fails 2 "http://a" 3 EmptyString
                world3 world3_acquired (Ptr 1) eq_refl Htries eq_refl)
      as (result & w3 & trace & released & Hget & Hlog & Hrel & _).
    rewrite Hget. simpl. rewrite Hlog. exact Hrel.
  - destruct (GetMeasurements_releases_once engine_marshal_fails 2 "http://a" 3
                EmptyString world3 world3_acquired (Ptr 1) eq_refl Htries eq_refl)
      as (result & w3 & trace & released & Hget & Hlog & Hrel & _).
    rewrite Hget. simpl. rewrite Hlog. exact Hrel.
  - destruct (GetMeasurements_releases_once engine_unmarshal_fails 2 "http://a" 3
                EmptyString world3 world3_acquired (Ptr 1) eq_refl Htries eq_refl)
      as (result & w3 & trace & released & Hget & Hlog & Hrel & _).
    rewrite Hget. simpl. rewrite Hlog. exact Hrel.
Defined.

(** The ways out of [getMeasurementsInternal] in these instances. *)
Example GetMeasurements_exit_paths :
  (GetMeasurements engine_example 2 "http://a" 3 "/tmp" world3).1
  = Some (Ok (set_ThumbnailFile "/tmp/thumb123"
                (set_LoadTimeDuration 500000000 decoded_example))) ∧
  (GetMeasurements engine_no_thumbnail 2 "http://a" 3 "/tmp" world3).1
  = Some (Err (io_error Ioutil)) ∧
  (GetMeasurements engine_run_fails 2 "http://a" 3 EmptyString world3).1
  = Some (Err (io_error PhantomJS)) ∧
  (GetMeasurements engine_marshal_fails 2 "http://a" 3 EmptyString world3).1
  = Some (Err (io_error EncodingJSON)) ∧
  (GetMeasurements engine_unmarshal_fails 2 "http://a" 3 EmptyString world3).1
  = Some (Err (io_error EncodingJSON)).
Proof. repeat split; reflexivity. Qed.

(** C1.  The parser on the specification's example: the engine reports a
    load time of 500 and one response with a running time of 100.  The
    record returned has [LoadTimeDuration] 500 ms, but the response stored
    under key 1 is the decoded one, with [RunningTimeDuration] still 0 and
    not the 100 ms that the loop computed for its own copy. *)
Theorem getMeasurementsInternal_drops_running_duration :
  ∃ performance w',
    getMeasurementsInternal engine_example (Ptr 1) "http://a" EmptyString world3
    = (Ok performance, w') ∧
    LoadTime performance = 500 ∧
    LoadTimeDuration performance = 500 * Millisecond ∧
    Responses performance !! 1 = Some response_example ∧
    RunningTime response_example = 100 ∧
    RunningTimeDuration response_example = 0 ∧
    duration_of_ms (RunningTime response_example) = 100 * Millisecond.
Proof.
  eexists _, _. split; [reflexivity|].
  split; [reflexivity|]. split; [reflexivity|].
  split; [apply lookup_singleton_eq|]. by repeat split.
Qed.

(** What the parser does and does not compute.  Whenever
    [getMeasurementsInternal] returns a record, that record is the one
    [json.Unmarshal] produced, with [LoadTimeDuration] set to [LoadTime]
    milliseconds (exactly so while the product fits an [int64]) and with the
    thumbnail path when there is one; its [Responses] map is the decoded
    map, entry for entry: the loop over the responses stores nothing. *)
Theorem getMeasurementsInternal_keeps_decoded_responses {any : Type} (eng : Engine any)
    (phantom : Phantom) (rawurl thumbnailsDir : string) (w w' : world)
    (performance : PageMeasurements) :
  getMeasurementsInternal eng phantom rawurl thumbnailsDir w = (Ok performance, w') →
  ∃ jsonResult decoded,
    Unmarshal eng jsonResult = Ok decoded ∧
    LoadTime performance = LoadTime decoded ∧
    Responses performance = Responses decoded ∧
    LoadTimeDuration performance = duration_of_ms (LoadTime decoded) ∧
    (in_int (LoadTime decoded * Millisecond) →
     LoadTimeDuration performance = LoadTime decoded * Millisecond).
Proof.
  intros Hok.
  destruct (getMeasurementsInternal_Ok eng _ _ _ _ _ _ Hok)
    as (file & result & js & decoded & _ & _ & Hdec & Hlt & Hresp & Hdur & _).
  exists js, decoded. do 4 (split; [done|]).
  intros Hfits. rewrite Hdur. unfold duration_of_ms. by apply wrap_int_small.
Qed.

Lemma getMeasurementsInternal_keeps_decoded_responses_witness :
  ∃ performance,
    (getMeasurementsInternal engine_example (Ptr 1) "http://a" EmptyString world3).1
    = Ok performance ∧
    Responses performance = Responses decoded_example.
Proof.
  exists (set_LoadTimeDuration 500000000 decoded_example). split; [reflexivity|].
  destruct (getMeasurementsInternal_keeps_decoded_responses engine_example (Ptr 1)
              "http://a" EmptyString world3
              (emit (EvRun (Ptr 1) (getJsFunc "http://a" EmptyString)) world3)
              (set_LoadTimeDuration 500000000 decoded_example) eq_refl)
    as (js & decoded & Hdec & _ & Hresp & _).
  injection Hdec as <-. exact Hresp.
Defined.

(** * Further properties of the pool *)

Section NewLemmas.

Implicit Types (p : workersPool) (i j k n : nat) (h : Phantom).

(** The slots [New_loop] fills and the ones it leaves. *)
Lemma New_loop_slots n i Start p p0 :
  New_loop n i Start p = Ok p0 →
  (∀ j, (i ≤ j < i + n)%nat → ∃ h, Start j = Ok h ∧ workers p0 !! j = Some h) ∧
  (∀ j, (j < i)%nat → workers p0 !! j = workers p !! j).
Proof.
  revert i p. induction n as [|n IH]; intros i p Hnew; simpl in Hnew.
  - injection Hnew as <-. split; [intros j Hj; lia | done].
  - destruct (Start i) as [w|[msg|src msg]|msg] eqn:Hstart; try done.
    destruct (decide _) as [Hlt|]; [|done].
    destruct (IH _ _ Hnew) as (Hfilled & Hkept). simpl in Hkept. split.
    + intros j Hj. destruct (decide (j = i)) as [->|Hne].
      * exists w. split; [done|]. rewrite Hkept by lia.
        by apply list_lookup_insert_eq.
      * apply Hfilled. lia.
    + intros j Hj. rewrite Hkept by lia. apply list_lookup_insert_ne. lia.
Qed.

Lemma New_loop_succeeds n i Start p :
  (i + n ≤ length (workers p))%nat →
  (∀ j, (i ≤ j < i + n)%nat → ∃ h, Start j = Ok h) →
  ∃ p0, New_loop n i Start p = Ok p0.
Proof.
  revert i p. induction n as [|n IH]; intros i p Hlen Hstart; simpl; [by eexists|].
  destruct (Hstart i) as [h ->]; [lia|].
  rewrite decide_True by lia. apply IH.
  - simpl. rewrite length_insert. lia.
  - intros j Hj. apply Hstart. lia.
Qed.

(** A failed start is a panic, whatever the slot. *)
Lemma New_loop_fails n i Start p k :
  (i ≤ k < i + n)%nat →
  (∀ h, Start k ≠ Ok h) →
  ∃ msg, New_loop n i Start p = Panic msg.
Proof.
  revert i p. induction n as [|n IH]; intros i p Hk Hbad; [lia|]. simpl.
  destruct (Start i) as [w|[msg|src msg]|msg] eqn:Hstart; try by eexists.
  destruct (decide _); [|by eexists].
  destruct (decide (i = k)) as [->|Hne]; [by destruct (Hbad w)|].
  apply IH; [lia|done].
Qed.

Lemma New_loop_never_Err n i Start p e : New_loop n i Start p ≠ Err e.
Proof.
  revert i p. induction n as [|n IH]; intros i p; simpl; [done|].
  destruct (Start i) as [w|[msg|src msg]|msg]; try done.
  destruct (decide _); [apply IH|done].
Qed.

(** The slots of a pool that [New] returns. *)
Lemma New_builds_pool_shape maxLen poolSize Start p :
  New maxLen poolSize Start = Ok p →
  length (workers p) = Z.to_nat poolSize ∧
  ∀ i, (i < Z.to_nat poolSize)%nat → ∃ h, Start i = Ok h ∧ workers p !! i = Some h.
Proof.
  intros Hnew. destruct (New_wf _ _ _ _ Hnew) as (_ & [_ Hlen] & _ & Hused).
  split; [by rewrite Hlen, Hused, length_replicate|].
  unfold New in Hnew. destruct ((poolSize <? 0) || (maxLen <? poolSize)); [done|].
  destruct (New_loop_slots _ _ _ _ _ Hnew) as (Hfilled & _).
  intros i Hi. apply Hfilled. lia.
Qed.

End NewLemmas.

(** [New] either returns a pool or panics; it never returns an error.
    When [poolSize] is negative or more than the runtime grants, [make]
    panics before any worker is started.  [New] returns a pool exactly when
    [poolSize] lies between 0 and that limit and each of the first
    [poolSize] calls of [phantomjs.Start] succeeds; the pool then has that
    size, every flag clear, and in slot [i] the handle of the [i]-th
    start. *)
Theorem New_builds_pool_or_panics (maxLen poolSize : Z)
    (Start : nat → outcome Phantom) :
  (∀ e, New maxLen poolSize Start ≠ Err e) ∧
  (poolSize < 0 ∨ maxLen < poolSize →
   New maxLen poolSize Start = Panic "makeslice: len out of range") ∧
  ((∃ p, New maxLen poolSize Start = Ok p) ↔
   (0 ≤ poolSize ≤ maxLen ∧
    ∀ i, (i < Z.to_nat poolSize)%nat → ∃ h, Start i = Ok h)) ∧
  (∀ p, New maxLen poolSize Start = Ok p →
     size p = poolSize ∧
     used p = replicate (Z.to_nat poolSize) false ∧
     length (workers p) = Z.to_nat poolSize ∧
     ∀ i, (i < Z.to_nat poolSize)%nat →
          ∃ h, Start i = Ok h ∧ workers p !! i = Some h).
Proof.
  assert (∀ p, New maxLen poolSize Start = Ok p →
            size p = poolSize ∧ used p = replicate (Z.to_nat poolSize) false ∧
            length (workers p) = Z.to_nat poolSize ∧
            ∀ i, (i < Z.to_nat poolSize)%nat →
                 ∃ h, Start i = Ok h ∧ workers p !! i = Some h) as Hshape.
  { intros p Hnew. destruct (New_wf _ _ _ _ Hnew) as (_ & _ & Hsize & Hused).
    destruct (New_builds_pool_shape _ _ _ _ Hnew) as (Hlen & Hslots). done. }
  split; [|split; [|split; [split|exact Hshape]]].
  - intros e. unfold New.
    destruct ((poolSize <? 0) || (maxLen <? poolSize)); [done|].
    apply New_loop_never_Err.
  - intros Hout. unfold New.
    destruct (Z.ltb_spec poolSize 0); [done|].
    destruct (Z.ltb_spec maxLen poolSize); [done|]. lia.
  - intros [p Hnew]. destruct (New_wf _ _ _ _ Hnew) as (Hrange & _).
    split; [done|]. intros i Hi.
    destruct (Hshape p Hnew) as (_ & _ & _ & Hslots).
    destruct (Hslots i Hi) as (h & Hh & _). by exists h.
  - intros [[Hpos Hfits] Hstart]. unfold New.
    rewrite (proj2 (Z.ltb_ge _ _)) by done.
    rewrite (proj2 (Z.ltb_ge _ _)) by done. simpl.
    apply New_loop_succeeds.
    + simpl. rewrite length_replicate. lia.
    + intros j Hj. apply Hstart. lia.
Qed.

(** One failed start among the first [poolSize] is enough for [New] to
    panic. *)
Theorem New_panics_on_failed_start (maxLen poolSize : Z)
    (Start : nat → outcome Phantom) (k : nat) :
  (k < Z.to_nat poolSize)%nat →
  (∀ h, Start k ≠ Ok h) →
  ∃ msg, New maxLen poolSize Start = Panic msg.
Proof.
  intros Hk Hbad. unfold New.
  destruct ((poolSize <? 0) || (maxLen <? poolSize)); [by eexists|].
  apply (New_loop_fails _ _ _ _ k); [lia|done].
Qed.

Lemma New_panics_on_failed_start_witness :
  (1 < Z.to_nat 3)%nat ∧ New maxLen_example 3 start_second_fails = Panic "failed".
Proof.
  assert (1 < Z.to_nat 3)%nat as Hk by (change (1 < 3)%nat; lia).
  split; [exact Hk|].
  destruct (New_panics_on_failed_start maxLen_example 3 start_second_fails 1 Hk)
    as [msg Hmsg].
  - intros h Hh. discriminate Hh.
  - reflexivity.
Defined.

Section SafetyLemmas.

Implicit Types (p q : workersPool) (i j k n : nat) (h : Phantom).

Lemma Close_loop_exits n i p exited :
  (i + n ≤ length (workers p))%nat →
  Close_loop n i p exited
  = (Ok (), exited ++ filter (λ h, h ≠ nil) (take n (drop i (workers p)))).
Proof.
  revert i exited. induction n as [|n IH]; intros i exited Hlen; simpl.
  - by rewrite app_nil_r.
  - destruct (lookup_lt_is_Some_2 (workers p) i) as [w Hw]; [lia|].
    rewrite Hw, (drop_S _ _ _ Hw). simpl.
    destruct (decide (w = nil)) as [->|Hne]; rewrite IH by lia.
    + by rewrite filter_cons_False by (intros H; by apply H).
    + rewrite filter_cons_True by done. by rewrite <- app_assoc.
Qed.

Lemma Close_wf p : wf p → Close p = (Ok (), filter (λ h, h ≠ nil) (workers p)).
Proof.
  intros Hwf. unfold Close. rewrite (wf_size p Hwf), Close_loop_exits.
  - destruct Hwf as [_ <-]. by rewrite drop_0, firstn_all.
  - destruct Hwf as [_ ->]. lia.
Qed.

Lemma run_snoc ops o p : run (ops ++ [o]) p = step o (run ops p).
Proof. unfold run. by rewrite foldl_app. Qed.

Lemma run_reachable ops p : reachable p (run ops p).
Proof.
  induction ops as [|o ops IH] using rev_ind; [apply reachable_init|].
  rewrite run_snoc. by apply reachable_step.
Qed.

Lemma reachable_run p0 p : reachable p0 p → ∃ ops, p = run ops p0.
Proof.
  induction 1 as [|o p _ [ops ->]]; [by exists []|].
  exists (ops ++ [o]). by rewrite run_snoc.
Qed.

(** A set flag stays set as long as the handle of its slot is not
    released. *)
Lemma step_keeps_flag o p k h :
  wf p → NoDup (workers p) →
  workers p !! k = Some h → used p !! k = Some true →
  o ≠ Release h →
  used (step o p) !! k = Some true.
Proof.
  intros Hwf Hnodup Hh Hk Ho. destruct o as [|h']; simpl.
  - destruct (getPhantom_cases p Hwf) as [[_ ->] | (j & h' & _ & _ & _ & ->)]; [done|].
    simpl. destruct (decide (j = k)) as [->|Hne].
    + apply list_lookup_insert_eq. by eapply lookup_lt_Some.
    + by rewrite list_lookup_insert_ne.
  - destruct (releasePhantom_cases p h' Hwf) as [[_ ->] | (j & Hj & _ & _ & ->)]; [done|].
    simpl. rewrite list_lookup_insert_ne; [done|]. intros ->.
    rewrite Hh in Hj. injection Hj as ->. done.
Qed.

Lemma run_keeps_flag ops p k h :
  wf p → NoDup (workers p) →
  workers p !! k = Some h → used p !! k = Some true →
  Forall (λ o, o ≠ Release h) ops →
  wf (run ops p) ∧ workers (run ops p) = workers p ∧
  used (run ops p) !! k = Some true.
Proof.
  intros Hwf Hnodup Hh Hk. induction ops as [|o ops IH] using rev_ind; intros Hops;
    [done|].
  apply Forall_app in Hops as [Hops Ho]. rewrite Forall_singleton in Ho.
  destruct (IH Hops) as (Hwf' & Hw' & Hk'). rewrite run_snoc.
  destruct (step_frame o _ Hwf') as (Hw'' & _ & _).
  split; [by apply step_wf|]. split; [congruence|].
  apply (step_keeps_flag o _ k h); [done|by rewrite Hw'|by rewrite Hw'|done|exact Ho].
Qed.

(** How one operation moves the count of set flags. *)
Lemma count_set_clear (l : list bool) k :
  l !! k = Some true →
  S (length (filter (λ b, b = true) (<[k := false]> l)))
  = length (filter (λ b, b = true) l).
Proof.
  revert k. induction l as [|b l IH]; intros k Hk; [done|].
  destruct k as [|k].
  - injection Hk as ->. change (<[0%nat := false]> (true :: l)) with (false :: l).
    rewrite filter_cons_False by done. by rewrite filter_cons_True by done.
  - change (<[S k := false]> (b :: l)) with (b :: <[k := false]> l).
    change ((b :: l) !! S k) with (l !! k) in Hk.
    destruct b.
    + rewrite !filter_cons_True by done. simpl. by rewrite IH.
    + rewrite !filter_cons_False by done. by apply IH.
Qed.

Lemma filter_non_nil_all (ws : list Phantom) :
  (∀ w, w ∈ ws → w ≠ nil) → filter (λ h, h ≠ nil) ws = ws.
Proof.
  induction ws as [|w ws IH]; intros Hall; [done|].
  rewrite filter_cons_True by (apply Hall; left). f_equal. apply IH.
  intros w' Hin. apply Hall. by right.
Qed.

End SafetyLemmas.

(** No index ever leaves its slice.  In every state a pool built by [New]
    can reach, [getPhantom] returns a handle or [ErrNoFreePhantom],
    [releasePhantom] returns nil or [ErrReleasePhantom], and [Close]
    returns: none of them panics. *)
Theorem reachable_pool_never_panics (maxLen poolSize : Z)
    (Start : nat → outcome Phantom) (p0 p : workersPool) :
  New maxLen poolSize Start = Ok p0 →
  reachable p0 p →
  ((∃ h p', getPhantom p = (Ok h, p')) ∨ getPhantom p = (Err ErrNoFreePhantom, p)) ∧
  (∀ phantom,
     (∃ p', releasePhantom phantom p = (Ok (), p')) ∨
     releasePhantom phantom p = (Err ErrReleasePhantom, p)) ∧
  (∃ exited, Close p = (Ok (), exited)).
Proof.
  intros Hnew Hreach. destruct (New_wf _ _ _ _ Hnew) as (_ & Hwf0 & _).
  destruct (reachable_frame _ _ Hwf0 Hreach) as (Hwf & _).
  split; [|split].
  - destruct (getPhantom_cases p Hwf) as [[_ Hget] | (k & h & _ & _ & _ & Hget)];
      [by right | left; by eexists _, _].
  - intros phantom.
    destruct (releasePhantom_cases p phantom Hwf) as [[_ Hrel] | (k & _ & _ & _ & Hrel)];
      [by right | left; by eexists].
  - eexists. by apply Close_wf.
Qed.

Lemma reachable_pool_never_panics_witness :
  New maxLen_example 3 start3 = Ok pool3 ∧ reachable pool3 pool3_busy ∧
  ∃ exited, Close pool3_busy = (Ok (), exited).
Proof.
  split; [reflexivity|]. split; [exact pool3_busy_reachable|].
  exact (proj2 (proj2 (reachable_pool_never_panics maxLen_example 3 start3 pool3
                         pool3_busy eq_refl pool3_busy_reachable))).
Defined.

(** Exclusive use.  When the stored handles are pairwise distinct and
    [getPhantom] has handed out [h], no later [getPhantom] hands out [h]
    again, whatever acquisitions and releases of other handles happen in
    between, until [h] itself is released. *)
Theorem handle_not_handed_out_twice (p p1 : workersPool) (h : Phantom) (ops : list op) :
  wf p →
  NoDup (workers p) →
  getPhantom p = (Ok h, p1) →
  Forall (λ o, o ≠ Release h) ops →
  ∀ h' p2, getPhantom (run ops p1) = (Ok h', p2) → h' ≠ h.
Proof.
  intros Hwf Hnodup Hget Hops h' p2 Hget'.
  destruct (getPhantom_cases p Hwf) as [[_ Herr] | (k & h0 & Hk & _ & Hh & Hok)].
  { rewrite Herr in Hget. done. }
  rewrite Hok in Hget. injection Hget as -> <-.
  pose proof (lookup_lt_Some _ _ _ Hk) as Hlt.
  destruct (run_keeps_flag ops (set_used p (<[k := true]> (used p))) k h)
    as (Hwf' & Hw' & Hk'); [|done|done| |done|].
  { apply wf_set_used; [done|]. apply length_insert. }
  { simpl. by apply list_lookup_insert_eq. }
  destruct (getPhantom_cases _ Hwf') as [[_ Herr] | (j & h1 & Hj & _ & Hh1 & Hok')].
  { rewrite Herr in Hget'. done. }
  rewrite Hok' in Hget'. injection Hget' as -> _.
  intros ->. rewrite Hw' in Hh1. simpl in Hh1.
  pose proof (NoDup_lookup _ _ _ _ Hnodup Hh Hh1) as ->. congruence.
Qed.

Lemma handle_not_handed_out_twice_witness :
  wf pool3 ∧ NoDup (workers pool3) ∧
  ∀ h' p2,
    getPhantom (run [Acquire; Release (Ptr 2); Acquire] pool3_busy) = (Ok h', p2) →
    h' ≠ Ptr 1.
Proof.
  assert (wf pool3) as Hwf by (split; reflexivity).
  assert (NoDup (workers pool3)) as Hnodup.
  { apply (@bool_decide_unpack _ (NoDup_dec (workers pool3))). vm_compute. exact I. }
  split; [exact Hwf|]. split; [exact Hnodup|].
  apply (handle_not_handed_out_twice pool3 pool3_busy (Ptr 1)
           [Acquire; Release (Ptr 2); Acquire] Hwf Hnodup eq_refl).
  repeat (apply Forall_cons; split; [intros H; discriminate H|]). apply Forall_nil. exact I.
Defined.

(** Giving a worker back.  When the stored handles are pairwise distinct
    and the flag of [h]'s slot is set, [releasePhantom h] succeeds, clears
    that flag and no other, so one worker fewer is in use; and if every
    slot before it is in use, the next [getPhantom] hands out [h] again and
    the pool is back where it was. *)
Theorem release_then_acquire (p : workersPool) (h : Phantom) (k : nat) :
  wf p →
  NoDup (workers p) →
  workers p !! k = Some h →
  used p !! k = Some true →
  ∃ p1,
    releasePhantom h p = (Ok (), p1) ∧
    used p1 = <[k := false]> (used p) ∧
    workers p1 = workers p ∧ size p1 = size p ∧
    S (in_use p1) = in_use p ∧
    ((∀ j, (j < k)%nat → used p !! j = Some true) → getPhantom p1 = (Ok h, p)).
Proof.
  intros Hwf Hnodup Hh Hk.
  exists (set_used p (<[k := false]> (used p))).
  pose proof (lookup_lt_Some _ _ _ Hk) as Hlt.
  split; [|split; [done|split; [done|split; [done|split]]]].
  - apply releasePhantom_first; [done|done|].
    intros i Hi. destruct (lookup_lt_is_Some_2 (workers p) i) as [w Hw].
    { apply lookup_lt_Some in Hh. lia. }
    exists w. split; [done|]. intros ->.
    pose proof (NoDup_lookup _ _ _ _ Hnodup Hw Hh). lia.
  - unfold in_use. simpl. by apply count_set_clear.
  - intros Hbefore.
    destruct (getPhantom_first_free (set_used p (<[k := false]> (used p))) k)
      as (h' & Hh' & ->).
    + apply wf_set_used; [done|]. apply length_insert.
    + simpl. by apply list_lookup_insert_eq.
    + intros j Hj. simpl. rewrite list_lookup_insert_ne by lia. by apply Hbefore.
    + simpl in Hh'. rewrite Hh in Hh'. injection Hh' as <-.
      unfold set_used. simpl. rewrite list_insert_insert_eq.
      rewrite (list_insert_id _ _ _ Hk). by destruct p.
Qed.

Lemma release_then_acquire_witness :
  wf pool3_busy ∧ NoDup (workers pool3_busy) ∧
  releasePhantom (Ptr 1) pool3_busy = (Ok (), pool3) ∧
  getPhantom pool3 = (Ok (Ptr 1), pool3_busy).
Proof.
  assert (wf pool3_busy) as Hwf by (split; reflexivity).
  assert (NoDup (workers pool3_busy)) as Hnodup.
  { apply (@bool_decide_unpack _ (NoDup_dec (workers pool3_busy))). vm_compute. exact I. }
  split; [exact Hwf|]. split; [exact Hnodup|].
  destruct (release_then_acquire pool3_busy (Ptr 1) 0 Hwf Hnodup eq_refl eq_refl)
    as (p1 & Hrel & Hused & Hworkers & Hsize & _ & Hget).
  assert (p1 = pool3) as ->.
  { destruct p1 as [u ws sz]. simpl in *. by rewrite Hused, Hworkers, Hsize. }
  split; [exact Hrel|]. apply Hget. intros j Hj. lia.
Defined.

(** [Close] after any use of the pool.  In every state a pool built by
    [New] can reach, [Close] returns after calling [Exit] on the non-nil
    handles of the slots, in slot order, once per slot, whether or not the
    worker is marked in use.  When no start returned a nil handle these are
    exactly the handles the starts returned, in start order. *)
Theorem Close_exits_started_workers (maxLen poolSize : Z)
    (Start : nat → outcome Phantom) (p0 p : workersPool) :
  New maxLen poolSize Start = Ok p0 →
  reachable p0 p →
  Close p = (Ok (), filter (λ h, h ≠ nil) (workers p0)) ∧
  ((∀ i, Start i ≠ Ok nil) →
   length (Close p).2 = Z.to_nat poolSize ∧
   ∀ i, (i < Z.to_nat poolSize)%nat →
        ∃ h, Start i = Ok h ∧ (Close p).2 !! i = Some h).
Proof.
  intros Hnew Hreach. destruct (New_wf _ _ _ _ Hnew) as (_ & Hwf0 & _).
  destruct (reachable_frame _ _ Hwf0 Hreach) as (Hwf & Hw & _).
  assert (Close p = (Ok (), filter (λ h, h ≠ nil) (workers p0))) as Hclose.
  { rewrite <- Hw. by apply Close_wf. }
  split; [done|]. intros Hnonnil. rewrite Hclose. simpl.
  destruct (New_builds_pool_shape _ _ _ _ Hnew) as (Hlen & Hslots).
  assert (filter (λ h, h ≠ nil) (workers p0) = workers p0) as ->.
  { apply filter_non_nil_all. intros h Hin ->.
    apply list_elem_of_lookup_1 in Hin as [i Hi].
    destruct (Hslots i) as (h & Hstart & Hh).
    { rewrite <- Hlen. by eapply lookup_lt_Some. }
    rewrite Hi in Hh. injection Hh as <-. by apply (Hnonnil i). }
  split; [done|]. exact Hslots.
Qed.

Lemma Close_exits_started_workers_witness :
  New maxLen_example 3 start3 = Ok pool3 ∧ reachable pool3 pool3_busy ∧
  Close pool3_busy = (Ok (), [Ptr 1; Ptr 2; Ptr 3]).
Proof.
  split; [reflexivity|]. split; [exact pool3_busy_reachable|].
  exact (proj1 (Close_exits_started_workers maxLen_example 3 start3 pool3 pool3_busy
                  eq_refl pool3_busy_reachable)).
Defined.

(** * Further properties of the retry loop and of the orchestrator *)

Section RetryShape.

Implicit Types (f : workersPool → outcome Phantom * workersPool) (w : world).

Lemma try_run_Err budget e trace : try_run budget (Err e) trace → e = ErrMaxWait.
Proof. by inversion 1. Qed.

(** Whatever the budget and the fuel, a run of the loop that has returned
    is made of failed rounds closed by a successful or panicking call or by
    nothing. *)
Lemma try_loop_shape f fuel maxTries :
  ∀ attempt w r w',
    try_loop fuel maxTries (acquiring f) attempt w = (Some r, w') →
    ∃ budget trace,
      log w' = log w ++ trace ∧ try_run budget r trace ∧
      (maxTries < attempt → trace = [] ∧ w' = w) ∧
      (maxTries = int_max → in_int attempt → ∀ e, r ≠ Err e).
Proof.
  induction fuel as [|fuel IH]; intros attempt w r w' Hrun; simpl in Hrun; [done|].
  destruct (Z.leb_spec attempt maxTries) as [Hle | Hgt].
  - unfold acquiring at 1 in Hrun. destruct (f (pool w)) as [[h|e|msg] p'].
    + injection Hrun as <- <-. exists 1%nat, [EvGetPhantom (Ok h)].
      split; [done|]. split; [apply (try_run_ok 1 [] h); simpl; lia|].
      split; [lia | done].
    + destruct (IH _ _ _ _ Hrun) as (budget & trace & Hlog & Htrace & _ & Hmax).
      exists (S budget), (EvGetPhantom (Err e) :: EvSleep retry_interval :: trace).
      split; [rewrite Hlog; simpl; by rewrite <- !app_assoc|].
      split; [by apply try_run_cons|]. split; [lia|].
      intros Hint _. apply Hmax; [done | apply wrap_int_range].
    + injection Hrun as <- <-. exists 1%nat, [EvGetPhantom (Panic msg)].
      split; [done|]. split; [apply (try_run_panic 1 [] msg); simpl; lia|].
      split; [lia | done].
  - injection Hrun as <- <-. exists 0%nat, []. split; [by rewrite app_nil_r|].
    split; [by apply (try_run_exhausted 0 [])|]. split; [done|].
    intros -> [_ Hrange]. lia.
Qed.

(** On a pool whose flags are all set, the loop spends its whole budget
    and leaves the pool alone. *)
Lemma try_loop_pool_full maxTries (budget : nat) :
  maxTries < int_max →
  ∀ fuel attempt w,
    getPhantom (pool w) = (Err ErrNoFreePhantom, pool w) →
    1 ≤ attempt →
    Z.of_nat budget = maxTries + 1 - attempt →
    (budget < fuel)%nat →
    try_loop fuel maxTries getPhantom_call attempt w
    = (Some (Err ErrMaxWait),
       {| pool := pool w;
          log := log w ++ failed_rounds (replicate budget ErrNoFreePhantom) |}).
Proof.
  intros Hmax. induction budget as [|budget IH]; intros fuel attempt w Hfull Hpos Hb Hfuel;
    (destruct fuel as [|fuel]; [lia|]); simpl.
  - rewrite (proj2 (Z.leb_gt _ _)) by lia. rewrite app_nil_r. by destruct w.
  - rewrite (proj2 (Z.leb_le _ _)) by lia.
    unfold getPhantom_call, acquiring at 1. rewrite Hfull.
    rewrite wrap_int_small by (unfold in_int, int_min, int_max in *; lia).
    fold getPhantom_call. rewrite IH; [|done|lia|lia|lia].
    simpl. by rewrite <- !app_assoc.
Qed.

(** Releasing what was just acquired, on a pool with distinct handles. *)
Lemma release_after_acquire p k h :
  wf p → NoDup (workers p) →
  used p !! k = Some false → workers p !! k = Some h →
  releasePhantom h (set_used p (<[k := true]> (used p))) = (Ok (), p).
Proof.
  intros Hwf Hnodup Hk Hh. rewrite (releasePhantom_first _ h k).
  - unfold set_used. simpl. rewrite list_insert_insert_eq.
    rewrite (list_insert_id _ _ _ Hk). by destruct p.
  - apply wf_set_used; [done|]. apply length_insert.
  - done.
  - intros i Hi. simpl.
    destruct (lookup_lt_is_Some_2 (workers p) i) as [w Hw].
    { apply lookup_lt_Some in Hh. lia. }
    exists w. split; [done|]. intros ->.
    pose proof (NoDup_lookup _ _ _ _ Hnodup Hw Hh). lia.
Qed.

End RetryShape.

(** [try] at the edges of its budget, for every acquisition function.
    With a budget below 1 it returns [ErrMaxWait] at once, without calling
    the function and without sleeping.  With any budget of at least 1, the
    largest [int] included, a first call that succeeds ends the run at once
    with its handle.  And whenever [try] returns, with any budget, what it
    did is a sequence of failed rounds followed by one successful call
    (whose handle is the result), or one panicking call, or nothing; an
    error it returns is always [ErrMaxWait], never the error of the
    acquisition function, and with the largest budget, [int_max], it is
    never an error. *)
Theorem try_returns_handle_or_ErrMaxWait
    (f : workersPool → outcome Phantom * workersPool)
    (fuel : nat) (maxTries : Z) (w : world) :
  (maxTries < 1 → (0 < fuel)%nat →
   try fuel maxTries (acquiring f) w = (Some (Err ErrMaxWait), w)) ∧
  (1 ≤ maxTries → (0 < fuel)%nat →
   ∀ h p', f (pool w) = (Ok h, p') →
           try fuel maxTries (acquiring f) w
           = (Some (Ok h), {| pool := p'; log := log w ++ [EvGetPhantom (Ok h)] |})) ∧
  (∀ r w',
     try fuel maxTries (acquiring f) w = (Some r, w') →
     (∃ budget trace, log w' = log w ++ trace ∧ try_run budget r trace) ∧
     (∀ e, r = Err e → e = ErrMaxWait) ∧
     (maxTries = int_max → ∀ e, r ≠ Err e)).
Proof.
  split; [|split].
  - intros Hfew Hfuel. destruct fuel as [|fuel]; [lia|]. unfold try. simpl.
    by rewrite (proj2 (Z.leb_gt _ _)) by lia.
  - intros Hpos Hfuel h p' Hf. destruct fuel as [|fuel]; [lia|]. unfold try. simpl.
    rewrite (proj2 (Z.leb_le _ _)) by lia. unfold acquiring. by rewrite Hf.
  - intros r w' Hrun.
    destruct (try_loop_shape f fuel maxTries 1 w r w' Hrun)
      as (budget & trace & Hlog & Htrace & _ & Hmax).
    split; [by exists budget, trace|]. split.
    + intros e ->. by eapply try_run_Err.
    + intros Hint. apply Hmax; [done | apply in_int_1].
Qed.

Lemma try_returns_handle_or_ErrMaxWait_witness :
  try 1 0 getPhantom_call world3 = (Some (Err ErrMaxWait), world3) ∧
  try 1 int_max getPhantom_call world3 = (Some (Ok (Ptr 1)), world3_acquired).
Proof.
  assert (0 < 1)%nat as Hfuel by lia.
  destruct (try_returns_handle_or_ErrMaxWait getPhantom 1 0 world3) as (Hfew & _ & _).
  destruct (try_returns_handle_or_ErrMaxWait getPhantom 1 int_max world3)
    as (_ & Hfirst & _).
  split.
  - apply Hfew; [lia | exact Hfuel].
  - apply (Hfirst ltac:(discriminate) Hfuel (Ptr 1) pool3_busy eq_refl).
Defined.

(** A measurement on a pool with a free worker.  With a valid address, a
    budget of at least one try, pairwise distinct handles and the first
    clear flag at slot [k], [GetMeasurements] takes the worker of slot [k]
    at its first attempt, without sleeping, returns whatever
    [getMeasurementsInternal] returns for that worker (record or error),
    and leaves the pool exactly as it found it: the release succeeds on
    every way out. *)
Theorem GetMeasurements_with_free_worker {any : Type} (eng : Engine any)
    (fuel : nat) (rawurl : string) (nrOfTries : Z) (thumbnailsDir : string)
    (w : world) (k : nat) (h : Phantom) :
  ParseRequestURI eng rawurl = None →
  1 ≤ nrOfTries →
  wf (pool w) →
  NoDup (workers (pool w)) →
  used (pool w) !! k = Some false →
  (∀ j, (j < k)%nat → used (pool w) !! j = Some true) →
  workers (pool w) !! k = Some h →
  (0 < fuel)%nat →
  let w1 := {| pool := set_used (pool w) (<[k := true]> (used (pool w)));
               log := log w ++ [EvGetPhantom (Ok h)] |} in
  let run := getMeasurementsInternal eng h rawurl thumbnailsDir w1 in
  GetMeasurements eng fuel rawurl nrOfTries thumbnailsDir w
  = (Some run.1,
     {| pool := pool w; log := log run.2 ++ [EvReleasePhantom h (Ok ())] |}).
Proof.
  intros Hurl Htries Hwf Hnodup Hk Hbefore Hh Hfuel. cbv zeta.
  destruct (getPhantom_first_free (pool w) k Hwf Hk Hbefore) as (h' & Hh' & Hget).
  rewrite Hh in Hh'. injection Hh' as <-.
  unfold GetMeasurements. rewrite Hurl, (proj2 (Z.ltb_ge _ _)) by lia.
  destruct fuel as [|fuel]; [lia|]. unfold try. cbn [try_loop].
  rewrite (proj2 (Z.leb_le _ _)) by lia.
  unfold getPhantom_call, acquiring at 1. rewrite Hget.
  destruct (getMeasurementsInternal_frame eng h rawurl thumbnailsDir
              {| pool := set_used (pool w) (<[k := true]> (used (pool w)));
                 log := log w ++ [EvGetPhantom (Ok h)] |})
    as (ran & _ & _ & Hpool).
  destruct (getMeasurementsInternal eng h rawurl thumbnailsDir _) as [r w2].
  cbn [fst snd pool] in *. unfold releasePhantom_call. rewrite Hpool.
  rewrite (release_after_acquire (pool w) k h Hwf Hnodup Hk Hh).
  by destruct r.
Qed.

Lemma GetMeasurements_with_free_worker_witness :
  GetMeasurements engine_run_fails 1 "http://a" 3 EmptyString
    {| pool := pool3_busy; log := [] |}
  = (Some (Err (io_error PhantomJS)),
     {| pool := pool3_busy;
        log := [EvGetPhantom (Ok (Ptr 2));
                EvRun (Ptr 2) (getJsFunc "http://a" EmptyString);
                EvReleasePhantom (Ptr 2) (Ok ())] |}).
Proof.
  assert (wf pool3_busy) as Hwf by (split; reflexivity).
  assert (NoDup (workers pool3_busy)) as Hnodup.
  { apply (@bool_decide_unpack _ (NoDup_dec (workers pool3_busy))). vm_compute. exact I. }
  assert (1 ≤ 3) as Htries by lia.
  assert (0 < 1)%nat as Hfuel by lia.
  rewrite (GetMeasurements_with_free_worker engine_run_fails 1 "http://a" 3 EmptyString
             {| pool := pool3_busy; log := [] |} 1 (Ptr 2)
             eq_refl Htries Hwf Hnodup eq_refl).
  - reflexivity.
  - intros [|j] Hj; [reflexivity | lia].
  - reflexivity.
  - exact Hfuel.
Defined.

(** A measurement on an exhausted pool.  With a valid address, a budget
    [nrOfTries] from 1 up to (not including) the largest [int] and every
    flag set, [GetMeasurements] returns [ErrMaxWait] after [nrOfTries]
    failed acquisitions, each followed by a sleep of 200 ms; it creates no
    temporary file, never runs the engine, releases nothing and leaves the
    pool as it was. *)
Theorem GetMeasurements_on_exhausted_pool {any : Type} (eng : Engine any)
    (fuel : nat) (rawurl : string) (nrOfTries : Z) (thumbnailsDir : string)
    (w : world) :
  ParseRequestURI eng rawurl = None →
  1 ≤ nrOfTries < int_max →
  wf (pool w) →
  (∀ j, (j < length (used (pool w)))%nat → used (pool w) !! j = Some true) →
  (Z.to_nat nrOfTries < fuel)%nat →
  GetMeasurements eng fuel rawurl nrOfTries thumbnailsDir w
  = (Some (Err ErrMaxWait),
     {| pool := pool w;
        log := log w
               ++ failed_rounds (replicate (Z.to_nat nrOfTries) ErrNoFreePhantom) |}).
Proof.
  intros Hurl [Hpos Hmax] Hwf Hall Hfuel.
  unfold GetMeasurements. rewrite Hurl, (proj2 (Z.ltb_ge _ _)) by lia.
  unfold try.
  rewrite (try_loop_pool_full nrOfTries (Z.to_nat nrOfTries)); [done|done| |lia|lia|done].
  by apply getPhantom_full.
Qed.

Lemma GetMeasurements_on_exhausted_pool_witness :
  GetMeasurements engine_example 3 "http://a" 2 "/tmp" {| pool := pool3_full; log := [] |}
  = (Some (Err ErrMaxWait),
     {| pool := pool3_full;
        log := [EvGetPhantom (Err ErrNoFreePhantom); EvSleep retry_interval;
                EvGetPhantom (Err ErrNoFreePhantom); EvSleep retry_interval] |}).
Proof.
  assert (1 ≤ 2 < int_max) as Hrange by (split; [lia | reflexivity]).
  assert (wf pool3_full) as Hwf by (split; reflexivity).
  assert (Z.to_nat 2 < 3)%nat as Hfuel by (change (2 < 3)%nat; lia).
  rewrite (GetMeasurements_on_exhausted_pool engine_example 3 "http://a" 2 "/tmp"
             {| pool := pool3_full; log := [] |} eq_refl Hrange Hwf).
  - reflexivity.
  - intros [|[|[|j]]] Hj; simpl in Hj; try reflexivity. lia.
  - exact Hfuel.
Defined.

(** Case analysis on the next outside call in a hypothesis. *)
Ltac outside_call H :=
  match type of H with
  | context [match ?c with Ok _ => _ | Err _ => _ | Panic _ => _ end] =>
      let E := fresh "Hcall" in destruct c eqn:E
  end.



(** The calls [getMeasurementsInternal] makes.  It asks for a temporary
    file exactly when [thumbnailsDir] is not empty, and then once; it runs
    the engine at most once, on the worker it was given; it never calls
    [getPhantom], [releasePhantom] or [time.Sleep], and it leaves the pool
    as it was. *)
Theorem getMeasurementsInternal_calls {any : Type} (eng : Engine any)
    (phantom : Phantom) (rawurl thumbnailsDir : string) (w : world) :
  ∃ trace,
    log (getMeasurementsInternal eng phantom rawurl thumbnailsDir w).2 = log w ++ trace ∧
    pool (getMeasurementsInternal eng phantom rawurl thumbnailsDir w).2 = pool w ∧
    tempfiles trace = (if decide (thumbnailsDir = EmptyString) then 0 else 1)%nat ∧
    (engine_runs trace ≤ 1)%nat ∧
    (∀ h script, (EvRun h script ∈ trace) → h = phantom ∧ address script = rawurl) ∧
    attempts trace = 0%nat ∧ sleeps trace = 0%nat ∧ releases trace = [].
Proof.
  assert (∀ file,
            ∀ h script, (EvRun h script ∈ [EvRun phantom (getJsFunc rawurl file)]) →
                        h = phantom ∧ address script = rawurl) as Hone.
  { intros file h script Hin. apply list_elem_of_singleton in Hin.
    by injection Hin as -> ->. }
  unfold getMeasurementsInternal, getThumbnailFile.
  destruct thumbnailsDir as [|c dir].
  - exists [EvRun phantom (getJsFunc rawurl EmptyString)].
    rewrite decide_True by done. simpl.
    destruct (Run eng phantom _) as [result|e|msg]; simpl;
      [destruct (Marshal eng result) as [js|e|msg]; simpl;
       [destruct (Unmarshal eng js) as [perf|e|msg]; simpl|..]|..];
      (split; [done|]; split; [done|]; split; [done|]; split; [unfold engine_runs; simpl; lia|];
       split; [apply Hone|done]).
  - rewrite decide_False by done.
    assert ((0 <? Z.of_nat (String.length (String c dir))) = true) as ->.
    { apply Z.ltb_lt. simpl. lia. }
    destruct (TempFile eng (String c dir) "thumb") as [file|e|msg].
    + exists [EvTempFile (String c dir); EvRun phantom (getJsFunc rawurl file)].
      destruct (Run eng phantom _) as [result|e|msg]; simpl;
        [destruct (Marshal eng result) as [js|e|msg]; simpl;
         [destruct (Unmarshal eng js) as [perf|e|msg]; simpl|..]|..];
        (split; [by rewrite <- app_assoc|]; split; [done|]; split; [done|];
         split; [unfold engine_runs; simpl; lia|]; split; [|done];
         intros h script Hin; apply elem_of_cons in Hin as [Hin|Hin]; [done|];
         by apply (Hone file)).
    + exists [EvTempFile (String c dir)]. simpl.
      split; [done|]. split; [done|]. split; [done|].
      split; [unfold engine_runs; simpl; lia|]. split; [|done].
      intros h script Hin. apply list_elem_of_singleton in Hin. done.
    + exists [EvTempFile (String c dir)]. simpl.
      split; [done|]. split; [done|]. split; [done|].
      split; [unfold engine_runs; simpl; lia|]. split; [|done].
      intros h script Hin. apply list_elem_of_singleton in Hin. done.
Qed.

(** The thumbnail path.  When [getMeasurementsInternal] returns a record
    and a thumbnail directory was given, the file was created by
    [ioutil.TempFile] in that directory with the prefix thumb, the engine's
    script was given that very path, and (the path not being empty) the
    record carries it.  With no directory the script gets the empty path,
    no file is created, and the record's path is the decoded one. *)
Theorem getMeasurementsInternal_thumbnail {any : Type} (eng : Engine any)
    (phantom : Phantom) (rawurl thumbnailsDir : string) (w w' : world)
    (performance : PageMeasurements) :
  getMeasurementsInternal eng phantom rawurl thumbnailsDir w = (Ok performance, w') →
  (thumbnailsDir ≠ EmptyString →
   ∃ file,
     TempFile eng thumbnailsDir "thumb" = Ok file ∧
     log w' = log w ++ [EvTempFile thumbnailsDir; EvRun phantom (getJsFunc rawurl file)] ∧
     (file ≠ EmptyString → ThumbnailFile performance = file)) ∧
  (thumbnailsDir = EmptyString →
   log w' = log w ++ [EvRun phantom (getJsFunc rawurl EmptyString)] ∧
   ∃ result jsonResult decoded,
     Run eng phantom (getJsFunc rawurl EmptyString) = Ok result ∧
     Marshal eng result = Ok jsonResult ∧
     Unmarshal eng jsonResult = Ok decoded ∧
     ThumbnailFile performance = ThumbnailFile decoded).
Proof.
  intros Hrun. unfold getMeasurementsInternal, getThumbnailFile in Hrun.
  destruct thumbnailsDir as [|c dir].
  - split; [done|]. intros _. simpl in Hrun.
    repeat outside_call Hrun; try discriminate Hrun.
    rewrite range_Responses_id in Hrun. injection Hrun as <- <-.
    split; [done|]. by eexists _, _, _.
  - split; [|done]. intros _.
    assert ((0 <? Z.of_nat (String.length (String c dir))) = true) as Hdir.
    { apply Z.ltb_lt. simpl. lia. }
    rewrite Hdir in Hrun.
    destruct (TempFile eng (String c dir) "thumb") as [file|e|msg]; [|done|done].
    exists file. repeat outside_call Hrun; try discriminate Hrun.
    rewrite range_Responses_id in Hrun. injection Hrun as <- <-.
    split; [done|]. split; [simpl; by rewrite <- app_assoc|].
    intros Hfile. destruct file as [|c' file]; done.
Qed.

Lemma getMeasurementsInternal_thumbnail_witness :
  ∃ performance w',
    getMeasurementsInternal engine_example (Ptr 1) "http://a" "/tmp" world3
    = (Ok performance, w') ∧
    ThumbnailFile performance = "/tmp/thumb123"%string.
Proof.
  eexists _, _. split; [reflexivity|].
  destruct (getMeasurementsInternal_thumbnail engine_example (Ptr 1) "http://a" "/tmp"
              world3 _ _ eq_refl) as [Hdir _].
  destruct Hdir as (file & Hfile & _ & Hpath); [done|].
  injection Hfile as <-. apply Hpath. done.
Defined.

Section DurationLemmas.

Lemma max_ms_fits ms : in_int (ms * Millisecond) ↔ - max_ms ≤ ms ≤ max_ms.
Proof.
  unfold in_int, int_min, int_max, Millisecond, max_ms.
  change (2 ^ 63) with 9223372036854775808. lia.
Qed.

End DurationLemmas.

(** The range of [LoadTimeDuration].  The product
    [time.Duration(LoadTime) * time.Millisecond] is computed in [int64]:
    the record's [LoadTimeDuration] is [LoadTime] milliseconds exactly when
    [LoadTime] lies between -9223372036854 and 9223372036854; outside, the
    product has wrapped around and is another value. *)
Theorem LoadTimeDuration_exact_range {any : Type} (eng : Engine any)
    (phantom : Phantom) (rawurl thumbnailsDir : string) (w w' : world)
    (performance : PageMeasurements) :
  getMeasurementsInternal eng phantom rawurl thumbnailsDir w = (Ok performance, w') →
  in_int (LoadTimeDuration performance) ∧
  (LoadTimeDuration performance = LoadTime performance * Millisecond ↔
   - max_ms ≤ LoadTime performance ≤ max_ms).
Proof.
  intros Hrun.
  destruct (getMeasurementsInternal_Ok eng _ _ _ _ _ _ Hrun)
    as (file & result & js & decoded & _ & _ & _ & Hlt & _ & Hdur & _).
  rewrite Hdur, Hlt. unfold duration_of_ms. split; [apply wrap_int_range|].
  rewrite <- max_ms_fits. split.
  - intros <-. apply wrap_int_range.
  - apply wrap_int_small.
Qed.

Lemma LoadTimeDuration_exact_range_witness :
  ∃ performance w',
    getMeasurementsInternal engine_long (Ptr 1) "http://a" EmptyString world3
    = (Ok performance, w') ∧
    LoadTime performance = 9223372036855 ∧
    LoadTimeDuration performance = - 9223372036854551616.
Proof.
  eexists _, _. split; [reflexivity|].
  destruct (LoadTimeDuration_exact_range engine_long (Ptr 1) "http://a" EmptyString
              world3 _ _ eq_refl) as [_ _].
  split; reflexivity.
Defined.

(** [GetMeasurements] always comes back and leaks no worker.  On a pool of
    the shape [New] builds, with a budget below the largest [int] and fuel
    for that many rounds, [GetMeasurements] returns; what it returns is the
    validation error, [ErrNoTries], [ErrMaxWait], or the outcome of
    [getMeasurementsInternal] on some worker (so it panics only if that
    does); and afterwards the pool has the same handles, the same size and
    as many workers in use as before, distinct handles or not. *)
Theorem GetMeasurements_returns_and_leaks_nothing {any : Type} (eng : Engine any)
    (fuel : nat) (rawurl : string) (nrOfTries : Z) (thumbnailsDir : string)
    (w : world) :
  wf (pool w) →
  nrOfTries < int_max →
  (Z.to_nat nrOfTries < fuel)%nat →
  ∃ r w',
    GetMeasurements eng fuel rawurl nrOfTries thumbnailsDir w = (Some r, w') ∧
    ((∃ e, ParseRequestURI eng rawurl = Some e ∧ r = Err e) ∨
     r = Err ErrNoTries ∨ r = Err ErrMaxWait ∨
     ∃ h w1, r = (getMeasurementsInternal eng h rawurl thumbnailsDir w1).1) ∧
    wf (pool w') ∧ workers (pool w') = workers (pool w) ∧
    size (pool w') = size (pool w) ∧ in_use (pool w') = in_use (pool w).
Proof.
  intros Hwf Hmax Hfuel. unfold GetMeasurements.
  destruct (ParseRequestURI eng rawurl) as [err|] eqn:Hurl.
  { exists (Err err), w. split; [done|]. split; [left; by exists err|done]. }
  destruct (Z.ltb_spec nrOfTries 1) as [Hfew | Hpos].
  { exists (Err ErrNoTries), w. split; [done|]. split; [right; by left|done]. }
  destruct (getPhantom_cases (pool w) Hwf) as [[Hall Hfull] | (k & h & Hk & Hbefore & Hh & Hget)].
  - unfold try.
    rewrite (try_loop_pool_full nrOfTries (Z.to_nat nrOfTries)); [|done|done|lia|lia|done].
    eexists _, _. split; [done|]. split; [right; right; by left|done].
  - destruct fuel as [|fuel]; [lia|]. unfold try. cbn [try_loop].
    rewrite (proj2 (Z.leb_le _ _)) by lia.
    unfold getPhantom_call, acquiring at 1. rewrite Hget.
    set (w1 := {| pool := set_used (pool w) (<[k := true]> (used (pool w)));
                  log := log w ++ [EvGetPhantom (Ok h)] |}).
    destruct (getMeasurementsInternal_frame eng h rawurl thumbnailsDir w1)
      as (ran & _ & _ & Hpool).
    assert (wf (pool w1)) as Hwf1.
    { apply wf_set_used; [done|]. apply length_insert. }
    destruct (releasePhantom_cases (pool w1) h Hwf1)
      as [[Hnotin _] | (j & Hj & Hfirst & Hlt & Hrel)].
    { exfalso. apply Hnotin. simpl. by eapply list_elem_of_lookup_2. }
    destruct (getMeasurementsInternal eng h rawurl thumbnailsDir w1) as [r w2] eqn:Hrun.
    cbn [fst snd] in *. unfold releasePhantom_call. rewrite Hpool, Hrel.
    exists r. eexists. split; [by destruct r|].
    split; [right; right; right; exists h, w1; by rewrite Hrun|].
    cbn [pool]. split; [|split; [done|split; [done|]]].
    + apply wf_set_used; [done|]. apply length_insert.
    + unfold in_use. simpl.
      assert (<[k := true]> (used (pool w)) !! j = Some true) as Hset.
      { destruct (decide (j = k)) as [->|Hne].
        - apply list_lookup_insert_eq. by eapply lookup_lt_Some.
        - rewrite list_lookup_insert_ne by done. apply Hbefore.
          destruct (decide (j < k)%nat) as [|Hge]; [done|].
          destruct (Hfirst k) as (w' & Hw' & Hne'); [lia|].
          simpl in Hw'. congruence. }
      pose proof (count_set_clear _ _ Hset) as Hclear.
      pose proof (count_set_insert _ _ Hk) as Hins. lia.
Qed.

Lemma GetMeasurements_returns_and_leaks_nothing_witness :
  wf pool3_busy ∧
  ∃ r w',
    GetMeasurements engine_example 4 "http://a" 3 "/tmp" {| pool := pool3_busy; log := [] |}
    = (Some r, w') ∧
    in_use (pool w') = 1%nat.
Proof.
  assert (wf pool3_busy) as Hwf by (split; reflexivity).
  split; [exact Hwf|].
  destruct (GetMeasurements_returns_and_leaks_nothing engine_example 4 "http://a" 3 "/tmp"
              {| pool := pool3_busy; log := [] |} Hwf)
    as (r & w' & Hget & _ & _ & _ & _ & Hcount).
  - reflexivity.
  - change (3 < 4)%nat. lia.
  - exists r, w'. split; [exact Hget|]. exact Hcount.
Defined.
